(** * Schobers/lookup: the OCR arrangement pipeline and the font loader

    A shallow embedding of [ocr.go] and of the font-symbol file of the
    package (candidate matches, their comparators, overlap suppression,
    text synthesis, template loading), with the properties of the
    specification stated and proved over it.

    Conventions.
    - Go's [int] is taken at 64 bits: values are [Z], and every [+] and [-]
      of the source is written with its wrap-around ([add], [sub]).
    - Go strings are byte strings: [string] of [ascii].
    - A match quality ([float64] in the source) is a rational [Q].  The
      source only subtracts two qualities and tests the sign of the
      difference; on finite floats the rounded difference has the sign of
      the exact one, which is what [Q] computes.
    - A slice is a [list]; an index out of range is a run-time panic,
      modelled by [None]. *)

From Stdlib Require Import ZArith QArith String Ascii List Lia Sorted.
From stdpp Require Import gmap strings list sorting.

Open Scope Z_scope.

(** ** 64-bit integers *)

Definition int_min : Z := - 2 ^ 63.
Definition int_max : Z := 2 ^ 63 - 1.

Definition wrap (z : Z) : Z := (z + 2 ^ 63) mod 2 ^ 64 - 2 ^ 63.

Definition add (a b : Z) : Z := wrap (a + b).
Definition sub (a b : Z) : Z := wrap (a - b).

Definition in_int (z : Z) : Prop := int_min <= z <= int_max.

(** Modelled from the spec: the helper [abs] is not among the sources; the
    spec reads [abs(abs(a) - abs(b))] as an absolute difference.  On a
    64-bit [int] the negation wraps. *)
Definition abs (z : Z) : Z := if z <? 0 then wrap (- z) else z.

(** ** Go's [image] package: points and rectangles *)

Record Point := { X : Z; Y : Z }.
Record Rectangle := { Min : Point; Max : Point }.

Definition ZR : Rectangle :=
  {| Min := {| X := 0; Y := 0 |}; Max := {| X := 0; Y := 0 |} |}.

(** [image.Rect]: the corners are swapped where needed so that
    [Min <= Max] on both axes. *)
Definition Rect (x0 y0 x1 y1 : Z) : Rectangle :=
  let '(x0, x1) := if x1 <? x0 then (x1, x0) else (x0, x1) in
  let '(y0, y1) := if y1 <? y0 then (y1, y0) else (y0, y1) in
  {| Min := {| X := x0; Y := y0 |}; Max := {| X := x1; Y := y1 |} |}.

Definition Empty (r : Rectangle) : bool :=
  (X (Max r) <=? X (Min r)) || (Y (Max r) <=? Y (Min r)).

Definition Intersect (r s : Rectangle) : Rectangle :=
  let minx := if X (Min r) <? X (Min s) then X (Min s) else X (Min r) in
  let miny := if Y (Min r) <? Y (Min s) then Y (Min s) else Y (Min r) in
  let maxx := if X (Max s) <? X (Max r) then X (Max s) else X (Max r) in
  let maxy := if Y (Max s) <? Y (Max r) then Y (Max s) else Y (Max r) in
  let r' := {| Min := {| X := minx; Y := miny |};
               Max := {| X := maxx; Y := maxy |} |} in
  if Empty r' then ZR else r'.

Definition Rectangle_eqb (r s : Rectangle) : bool :=
  (X (Min r) =? X (Min s)) && (Y (Min r) =? Y (Min s)) &&
  (X (Max r) =? X (Max s)) && (Y (Max r) =? Y (Max s)).

(** ** Data model *)

(** Modelled from the spec: the declaration of [imageBinary] is not among
    the sources; the spec gives it a width, a height and an ink size, the
    three fields the sources read.  Pixel data plays no role here. *)
Record imageBinary := { ib_width : Z; ib_height : Z; ib_size : Z }.

Record FontSymbol := {
  symbol : string;
  image : imageBinary;
  width : Z;
  height : Z
}.

(** [fontSymbolLookup]; the fields [fs], [x], [y], [g], [size] carry an
    [l_] prefix. *)
Record fontSymbolLookup := {
  l_fs : FontSymbol;
  l_x : Z;
  l_y : Z;
  l_g : Q;
  l_size : Z
}.

Definition newFontSymbolLookup (fs : FontSymbol) (x y : Z) (g : Q)
  : fontSymbolLookup :=
  {| l_fs := fs; l_x := x; l_y := y; l_g := g; l_size := ib_size (image fs) |}.

(** ** Comparators of candidate matches *)

Definition bbox (l : fontSymbolLookup) : Rectangle :=
  Rect (l_x l) (l_y l) (add (l_x l) (width (l_fs l)))
       (add (l_y l) (height (l_fs l))).

Definition cross (l f : fontSymbolLookup) : bool :=
  negb (Rectangle_eqb (Intersect (bbox l) (bbox f)) ZR).

Definition yCross (l f : fontSymbolLookup) : bool :=
  let ly2 := add (l_y l) (height (l_fs l)) in
  let fy2 := add (l_y f) (height (l_fs f)) in
  ((l_y l <=? l_y f) && (l_y f <=? ly2)) ||
  ((l_y l <=? fy2) && (fy2 <=? ly2)).

Definition Qpos_b (q : Q) : bool :=
  match (0 ?= q)%Q with Lt => true | _ => false end.

Definition biggerThan (l other : fontSymbolLookup) (maxSize2 : Z) : bool :=
  if maxSize2 <=? abs (sub (abs (l_size l)) (abs (l_size other))) then
    l_size other <? l_size l
  else
    let diff := (l_g l - l_g other)%Q in
    if negb (Qeq_bool diff 0) then Qpos_b diff
    else l_size other <? l_size l.

Definition comesAfter (l f : fontSymbolLookup) : bool :=
  let r := 0 in
  let r := if negb (yCross l f) then sub (l_y l) (l_y f) else r in
  let r := if r =? 0 then sub (l_x l) (l_x f) else r in
  let r := if r =? 0 then sub (l_y l) (l_y f) else r in
  r <? 0.

(** ** [biggerFirst]: the priority comparator of a candidate list *)

Definition maxSize (list : list fontSymbolLookup) : Z :=
  fold_left (fun m i => Z.max m (ib_size (image (l_fs i)))) list 0.

Definition maxSize2 (list : list fontSymbolLookup) : Z :=
  Z.quot (maxSize list) 2.

(** Go's closure takes two positions of the slice being sorted and compares
    the candidates stored there; the sort hands our comparator those two
    candidates. *)
Definition biggerFirst (list : list fontSymbolLookup)
  : fontSymbolLookup -> fontSymbolLookup -> bool :=
  let m2 := maxSize2 list in
  fun a b => biggerThan a b m2.

(** ** Go's [sort.Slice] on short slices

    On a short slice [sort.Slice] is a plain insertion sort (up to 12
    elements since Go 1.19, up to 6 before): for [i] from 1 upwards, the
    element at [i] is swapped backwards while [less(j, j-1)].  [sink] is
    that inner loop, over the already placed prefix read from its last
    element down. *)

Fixpoint sink {A} (less : A -> A -> bool) (v : A) (rprefix : list A) : list A :=
  match rprefix with
  | [] => [v]
  | p :: ps => if less v p then p :: sink less v ps else v :: p :: ps
  end.

Definition insertionSort (A : Type) (less : A -> A -> bool) (data : list A)
  : list A :=
  rev (fold_left (fun rprefix v => sink less v rprefix) data []).

(** ** Overlap suppression (the first loop of [filterAndArrange]) *)

Definition deleteSymbol (all : list fontSymbolLookup) (i : nat)
  : list fontSymbolLookup :=
  take i all ++ drop (S i) all.

(** The inner loop [for j := k + 1; j < len(all); j++]: a deletion at [j]
    is followed by [j--] and the loop's [j++], so [j] stays.  Every turn
    either deletes an element or moves [j] forward, so [len(all)] turns
    always suffice; [fuel] counts them. *)
Fixpoint suppress_from (fuel : nat) (kk : fontSymbolLookup)
    (all : list fontSymbolLookup) (j : nat) : list fontSymbolLookup :=
  match fuel with
  | O => all
  | S fuel' =>
      match all !! j with
      | None => all
      | Some jj =>
          if cross kk jj then suppress_from fuel' kk (deleteSymbol all j) j
          else suppress_from fuel' kk all (S j)
      end
  end.

(** The outer loop [for k, kk := range all] runs over the positions of the
    slice as it was when the loop started ([n] of them).  Once [k] reaches
    the end of the shortened slice, [kk] is one of the [nil] entries that
    [deleteSymbol] left in the backing array and the inner loop does not
    run: that is the [None] case. *)
Fixpoint suppress_loop (n : nat) (k : nat) (all : list fontSymbolLookup)
  : list fontSymbolLookup :=
  match n with
  | O => all
  | S n' =>
      let all' :=
        match all !! k with
        | Some kk => suppress_from (length all) kk all (S k)
        | None => all
        end in
      suppress_loop n' (S k) all'
  end.

Definition suppress (all : list fontSymbolLookup) : list fontSymbolLookup :=
  suppress_loop (length all) 0 all.

(** ** Text synthesis and [filterAndArrange] *)

Definition nl : string := String (ascii_of_nat 10) EmptyString.

Record synth := { st_str : string; st_x : Z; st_prev : Z }.

Section Pipeline.

(** [FontSymbol.Advance] is not among the sources: it is a parameter. *)
Variable Advance : FontSymbol -> Z.

(** [sort.Slice], handed the comparator on elements. *)
Variable sortSlice : forall A : Type, (A -> A -> bool) -> list A -> list A.

Definition synth_step (i : nat) (st : synth) (s : fontSymbolLookup) : synth :=
  let maxCurrentPreviousAdvance := Z.max (st_prev st) (Advance (l_fs s)) in
  let str :=
    if (maxCurrentPreviousAdvance <=? sub (l_x s) (st_x st))
       && negb (Nat.eqb i 0)
    then st_str st +:+ " " else st_str st in
  let str := if l_x s <? st_x st then str +:+ nl else str in
  {| st_str := str +:+ symbol (l_fs s);
     st_x := add (l_x s) (Advance (l_fs s));
     st_prev := Advance (l_fs s) |}.

Fixpoint synth_loop (i : nat) (st : synth) (all : list fontSymbolLookup)
  : synth :=
  match all with
  | [] => st
  | s :: rest => synth_loop (S i) (synth_step i st s) rest
  end.

(** [None] is the run-time panic of [all[0]] on an empty slice. *)
Definition synthesize (all : list fontSymbolLookup) : option string :=
  match all !! 0%nat with
  | None => None
  | Some first =>
      Some (st_str (synth_loop 0
              {| st_str := EmptyString; st_x := l_x first; st_prev := 0 |} all))
  end.

(** The first stage of [filterAndArrange] ("big images eat small
    ones"): the priority sort and the suppression loop. *)
Definition resolveOverlaps (all : list fontSymbolLookup)
  : list fontSymbolLookup :=
  let all := sortSlice _ (biggerFirst all) all in
  suppress all.

Definition filterAndArrange (all : list fontSymbolLookup) : option string :=
  let all := resolveOverlaps all in
  let all := sortSlice _ comesAfter all in
  synthesize all.

End Pipeline.

(** ** Errors and the OCR object *)

Inductive error :=
| ErrNotExist (path : string)
| EscapeError (s : string)
| ErrOther (msg : string).

Inductive result (A : Type) :=
| Ok (a : A)
| Err (e : error).
Arguments Ok {A} a.
Arguments Err {A} e.

(** [os.IsNotExist]; [None] is the [nil] error. *)
Definition IsNotExist (err : option error) : bool :=
  match err with
  | Some (ErrNotExist _) => true
  | _ => false
  end.

Record OCR := {
  fontFamilies : gmap string (list FontSymbol);
  threshold : Q;
  allSymbols : list FontSymbol;
  numThreads : Z
}.

Definition NewOCR (threshold : Q) (numThreads : list Z) : OCR :=
  {| fontFamilies := ∅;
     threshold := threshold;
     allSymbols := [];
     numThreads := match numThreads with n :: _ => n | [] => 1 end |}.

Definition AddSymbols (symbols : list FontSymbol) (o : OCR) : OCR :=
  {| fontFamilies := fontFamilies o;
     threshold := threshold o;
     allSymbols := allSymbols o ++ symbols;
     numThreads := numThreads o |}.

Definition AddFontFamily (name : string) (symbols : list FontSymbol) (o : OCR)
  : OCR :=
  let family := default [] (fontFamilies o !! name) in
  let family := family ++ symbols in
  AddSymbols symbols
    {| fontFamilies := <[name := family]> (fontFamilies o);
       threshold := threshold o;
       allSymbols := allSymbols o;
       numThreads := numThreads o |}.

(** ** [recognize] *)

Section Recognize.

Variable Advance : FontSymbol -> Z.
Variable sortSlice : forall A : Type, (A -> A -> bool) -> list A -> list A.

(** The scanner [findAllInParallel] is not among the sources: it is a
    parameter, returning Go's pair of a candidate list and an error. *)
Variable findAllInParallel :
  Z -> list FontSymbol -> imageBinary -> Q -> Rectangle ->
  list fontSymbolLookup * option error.

(** The outer [option] is [None] when the call panics. *)
Definition recognize (o : OCR) (bi : imageBinary) (rect : Rectangle)
  : option (string * option error) :=
  let '(found, err) :=
    findAllInParallel (numThreads o) (allSymbols o) bi (threshold o) rect in
  match err with
  | Some e => Some (EmptyString, Some e)
  | None =>
      if Nat.eqb (length found) 0 then Some (EmptyString, None)
      else
        match filterAndArrange Advance sortSlice found with
        | Some text => Some (text, None)
        | None => None
        end
  end.

End Recognize.

(** ** Go library functions on strings used by the font loader *)

Definition HasSuffix (s suffix : string) : bool :=
  (String.length suffix <=? String.length s)%nat &&
  String.eqb
    (substring (String.length s - String.length suffix)
               (String.length suffix) s)
    suffix.

Definition TrimSuffix (s suffix : string) : string :=
  if HasSuffix s suffix
  then substring 0 (String.length s - String.length suffix) s
  else s.

Definition HasPrefix (s pre : string) : bool := String.prefix pre s.

Definition byte_is (c : ascii) (n : N) : bool := N.eqb (N_of_ascii c) n.

(** [strings.Replace] of every U+200B by nothing; U+200B is the three
    bytes [E2 80 8B] in UTF-8. *)
Fixpoint remove_zwsp (s : string) : string :=
  match s with
  | EmptyString => EmptyString
  | String a s1 =>
      match s1 with
      | String b (String c rest) =>
          if byte_is a 226 && byte_is b 128 && byte_is c 139
          then remove_zwsp rest
          else String a (remove_zwsp s1)
      | _ => String a (remove_zwsp s1)
      end
  end.

Definition ishex (c : ascii) : bool :=
  let n := N_of_ascii c in
  ((48 <=? n) && (n <=? 57) || (97 <=? n) && (n <=? 102) ||
   (65 <=? n) && (n <=? 70))%N.

Definition unhex (c : ascii) : N :=
  let n := N_of_ascii c in
  (if (48 <=? n) && (n <=? 57) then n - 48
   else if (97 <=? n) && (n <=? 102) then n - 97 + 10
   else if (65 <=? n) && (n <=? 70) then n - 65 + 10
   else 0)%N.

(** [url.QueryUnescape]: the first pass of [unescape] checks every [%] and
    counts them ([n]) and notes a [+] ([hasPlus]); an ill-formed escape is
    an [EscapeError] holding at most three bytes from the [%] on. *)
Fixpoint unescape_check (s : string) (n : nat) (hasPlus : bool)
  : result (nat * bool) :=
  match s with
  | EmptyString => Ok (n, hasPlus)
  | String c s1 =>
      if byte_is c 37 then
        match s1 with
        | String h1 (String h2 rest) =>
            if ishex h1 && ishex h2 then unescape_check rest (S n) hasPlus
            else Err (EscapeError (substring 0 3 s))
        | _ => Err (EscapeError (substring 0 3 s))
        end
      else if byte_is c 43 then unescape_check s1 n true
      else unescape_check s1 n hasPlus
  end.

(** The second pass, run on a checked string. *)
Fixpoint unescape_build (s : string) : string :=
  match s with
  | EmptyString => EmptyString
  | String c s1 =>
      if byte_is c 37 then
        match s1 with
        | String h1 (String h2 rest) =>
            String (ascii_of_N (N.lor (N.shiftl (unhex h1) 4) (unhex h2)))
                   (unescape_build rest)
        | _ => EmptyString
        end
      else if byte_is c 43 then String " "%char (unescape_build s1)
      else String c (unescape_build s1)
  end.

Definition QueryUnescape (s : string) : result string :=
  match unescape_check s 0 false with
  | Err e => Err e
  | Ok (n, hasPlus) =>
      if Nat.eqb n 0 && negb hasPlus then Ok s
      else Ok (unescape_build s)
  end.

(** [filepath.Base] with [/] as the separator. *)
Definition is_sep (c : ascii) : bool := byte_is c 47.

Fixpoint drop_seps (r : list ascii) : list ascii :=
  match r with
  | c :: r' => if is_sep c then drop_seps r' else r
  | [] => []
  end.

Fixpoint take_elem (r : list ascii) : list ascii :=
  match r with
  | c :: r' => if is_sep c then [] else c :: take_elem r'
  | [] => []
  end.

Definition Base (path : string) : string :=
  match path with
  | EmptyString => "."
  | _ =>
      let r := drop_seps (rev (list_ascii_of_string path)) in
      match take_elem r with
      | [] => "/"
      | e => string_of_list_ascii (rev e)
      end
  end.

(** ** The font loader *)

Record FileInfo := { Name : string; IsDir : bool }.

Section Fonts.

(** The file system and the image decoder are the loader's environment;
    [ensureGrayScale] and [newImageBinary] are not among the sources. *)
Variables File Image : Type.
Variable os_Stat : string -> option error.
Variable ioutil_ReadDir : string -> result (list FileInfo).
Variable os_Open : string -> result File.
Variable image_Decode : File -> result Image.
Variable ensureGrayScale : Image -> Image.
Variable newImageBinary : Image -> imageBinary.

Definition NewFontSymbol (symbol : string) (img : Image) : FontSymbol :=
  let imgBin := newImageBinary (ensureGrayScale img) in
  {| symbol := symbol;
     image := imgBin;
     width := ib_width imgBin;
     height := ib_height imgBin |}.

Definition loadSymbol (path fileName : string) : result FontSymbol :=
  match os_Open (path +:+ "/" +:+ fileName) with
  | Err e => Err e
  | Ok imageFile =>
      match image_Decode imageFile with
      | Err e => Err e
      | Ok img =>
          let nameWithoutExtension := TrimSuffix fileName ".png" in
          match QueryUnescape nameWithoutExtension with
          | Err e => Err e
          | Ok symbolName =>
              let symbolName := remove_zwsp symbolName in
              Ok (NewFontSymbol symbolName img)
          end
      end
  end.

(** The loop of [loadFont] over the directory entries; [fonts] is the
    slice built so far. *)
Fixpoint loadFont_loop (path : string) (files : list FileInfo)
    (fonts : list FontSymbol) : result (list FontSymbol) :=
  match files with
  | [] => Ok fonts
  | f :: files' =>
      if IsDir f || HasPrefix (Name f) "." then
        loadFont_loop path files' fonts
      else
        match loadSymbol path (Name f) with
        | Err e => Err e
        | Ok fs => loadFont_loop path files' (fonts ++ [fs])
        end
  end.

Definition loadFont (path : string) : result (list FontSymbol) :=
  match ioutil_ReadDir path with
  | Err e => Err e
  | Ok files => loadFont_loop path files []
  end.

(** [LoadFont] mutates the receiver; the model returns the OCR after the
    call together with the returned error. *)
Definition LoadFont (fontPath : string) (o : OCR) : OCR * option error :=
  let err := os_Stat fontPath in
  if IsNotExist err then (o, err)
  else
    match loadFont fontPath with
    | Err e => (o, Some e)
    | Ok symbols =>
        let familyName := Base fontPath in
        (AddFontFamily familyName symbols o, None)
    end.

End Fonts.

(** ** The label rule in the words of the specification

    "The percent-decoded file name with its extension stripped; any
    literal U+200B is stripped after decoding." *)

Fixpoint has_dot (s : string) : bool :=
  match s with
  | EmptyString => false
  | String c r => byte_is c 46 || has_dot r
  end.

(** The extension starts at the last dot of the name. *)
Fixpoint spec_strip_extension (s : string) : string :=
  match s with
  | EmptyString => EmptyString
  | String c r =>
      if byte_is c 46 && negb (has_dot r) then EmptyString
      else String c (spec_strip_extension r)
  end.

(** Percent-decoding: each [%XY] with two hex digits is the byte [XY];
    every other byte stands for itself. *)
Fixpoint spec_percent_decode (s : string) : option string :=
  match s with
  | EmptyString => Some EmptyString
  | String c s1 =>
      if byte_is c 37 then
        match s1 with
        | String h1 (String h2 rest) =>
            if ishex h1 && ishex h2 then
              option_map (String (ascii_of_N (16 * unhex h1 + unhex h2)))
                         (spec_percent_decode rest)
            else None
        | _ => None
        end
      else option_map (String c) (spec_percent_decode s1)
  end.

Definition spec_label (fileName : string) : option string :=
  option_map remove_zwsp (spec_percent_decode (spec_strip_extension fileName)).

(** ** The contract of [sort.Slice]

    [sort.Slice] returns a permutation of the slice and, when [less] is a
    strict order that decides every pair of distinct elements (two
    elements neither of which is less than the other are equal), one in
    which no element is less than an earlier one. *)

Definition StrictTotalOn {A} (less : A -> A -> bool) (l : list A) : Prop :=
  (forall a, a ∈ l -> less a a = false) /\
  (forall a b c, a ∈ l -> b ∈ l -> c ∈ l ->
     less a b = true -> less b c = true -> less a c = true) /\
  (forall a b, a ∈ l -> b ∈ l ->
     less a b = false -> less b a = false -> a = b).

Definition SortedBy {A} (less : A -> A -> bool) (l : list A) : Prop :=
  StronglySorted (fun a b => less b a = false) l.

Definition SortContract
    (sortSlice : forall A : Type, (A -> A -> bool) -> list A -> list A)
  : Prop :=
  forall (A : Type) (less : A -> A -> bool) (l : list A),
    sortSlice A less l ≡ₚ l /\
    (StrictTotalOn less l -> SortedBy less (sortSlice A less l)).

(** ** Well-formed candidates *)

(** The size of a candidate is a pixel count, copied from its template by
    [newFontSymbolLookup]. *)
Definition size_ok (c : fontSymbolLookup) : Prop :=
  0 <= l_size c <= int_max /\ l_size c = ib_size (image (l_fs c)).

(** Coordinates and heights far from the ends of the [int] range, so that
    no sum or difference of two of them wraps. *)
Definition coords_ok (c : fontSymbolLookup) : Prop :=
  - 2 ^ 62 <= l_x c < 2 ^ 62 /\
  - 2 ^ 62 <= l_y c < 2 ^ 62 /\
  0 <= height (l_fs c) < 2 ^ 62 /\
  0 <= width (l_fs c) < 2 ^ 62.

(** ** Derived forms of the loops *)

(** The suppression loop written as a recursion: the head is kept and
    removes every later candidate that crosses it. *)
Fixpoint greedy (fuel : nat) (all : list fontSymbolLookup)
  : list fontSymbolLookup :=
  match fuel, all with
  | S fuel', kk :: rest =>
      kk :: greedy fuel' (List.filter (fun jj => negb (cross kk jj)) rest)
  | _, _ => []
  end.

(** The text that the synthesis loop writes for [rest] when it comes after
    the candidate [prev]. *)
Definition continuation (Advance : FontSymbol -> Z) (prev : fontSymbolLookup)
    (rest : list fontSymbolLookup) : string :=
  st_str (synth_loop Advance 1
            {| st_str := EmptyString;
               st_x := add (l_x prev) (Advance (l_fs prev));
               st_prev := Advance (l_fs prev) |} rest).

(** ** [url.QueryUnescape] against percent-decoding *)

(** [url.QueryUnescape] reads [+] as a space. *)
Definition plus_as_space (c : ascii) : ascii :=
  if byte_is c 43 then " "%char else c.

Fixpoint plus_to_space (s : string) : string :=
  match s with
  | EmptyString => EmptyString
  | String c r => String (plus_as_space c) (plus_to_space r)
  end.

Fixpoint has_plus (s : string) : bool :=
  match s with
  | EmptyString => false
  | String c r => byte_is c 43 || has_plus r
  end.

(** The two passes of [unescape] against percent-decoding with [+] read
    as a space: a checked string decodes to what the second pass builds,
    an ill-formed one does not decode, and a string without [%] and [+]
    is already its own decoding. *)
Definition unescape_agrees (s : string) : Prop :=
  forall n hasPlus,
    match unescape_check s n hasPlus with
    | Ok (n', hasPlus') =>
        (n <= n')%nat /\ (hasPlus = true -> hasPlus' = true) /\
        spec_percent_decode (plus_to_space s) = Some (unescape_build s) /\
        (n' = 0%nat -> hasPlus' = false -> unescape_build s = s)
    | Err _ => spec_percent_decode (plus_to_space s) = None
    end.

(** ** Sample data *)

Definition glyph (label : string) (w h ink : Z) : FontSymbol :=
  {| symbol := label;
     image := {| ib_width := w; ib_height := h; ib_size := ink |};
     width := w;
     height := h |}.

(** Three equally good matches in a row, each overlapping the next. *)
Definition rowA : fontSymbolLookup :=
  newFontSymbolLookup (glyph "A" 10 10 50) 0 0 1.
Definition rowB : fontSymbolLookup :=
  newFontSymbolLookup (glyph "B" 10 10 50) 8 0 1.
Definition rowC : fontSymbolLookup :=
  newFontSymbolLookup (glyph "C" 10 10 50) 16 0 1.

(** Two matches of different quality, far apart on one line. *)
Definition farA : fontSymbolLookup :=
  newFontSymbolLookup (glyph "A" 10 10 50) 0 0 (10 # 10).
Definition farB : fontSymbolLookup :=
  newFontSymbolLookup (glyph "B" 10 10 50) 25 0 (9 # 10).

(** Three candidates, no two of which overlap, each one line-overlapping
    the next. *)
Definition stairA : fontSymbolLookup :=
  newFontSymbolLookup (glyph "A" 5 10 50) 20 0 1.
Definition stairB : fontSymbolLookup :=
  newFontSymbolLookup (glyph "B" 5 10 50) 10 8 1.
Definition stairC : fontSymbolLookup :=
  newFontSymbolLookup (glyph "C" 5 10 50) 0 16 1.

(** A short candidate beside a tall one whose vertical span contains it. *)
Definition shortL : fontSymbolLookup :=
  newFontSymbolLookup (glyph "l" 5 2 50) 0 5 1.
Definition tallF : fontSymbolLookup :=
  newFontSymbolLookup (glyph "f" 5 20 50) 10 0 1.

(** Two overlapping matches of one glyph, of comparable size. *)
Definition dupHi : fontSymbolLookup :=
  newFontSymbolLookup (glyph "/" 10 10 40) 0 0 1.
Definition dupLo : fontSymbolLookup :=
  newFontSymbolLookup (glyph "/" 10 10 50) 2 0 (9 # 10).

(** A chain: [chainTop] crosses [chainHi], [chainHi] crosses [chainLo],
    [chainTop] and [chainLo] are apart. *)
Definition chainTop : fontSymbolLookup :=
  newFontSymbolLookup (glyph "C" 10 10 50) 0 0 1.
Definition chainHi : fontSymbolLookup :=
  newFontSymbolLookup (glyph "A" 10 10 50) 8 0 (9 # 10).
Definition chainLo : fontSymbolLookup :=
  newFontSymbolLookup (glyph "B" 10 10 50) 16 0 (8 # 10).

(** Narrow glyphs (3 wide) on one line, and the wide pair at 0 and 5. *)
Definition thinA0 : fontSymbolLookup :=
  newFontSymbolLookup (glyph "A" 3 10 50) 0 0 1.
Definition thinB25 : fontSymbolLookup :=
  newFontSymbolLookup (glyph "B" 3 10 50) 25 0 1.
Definition thinB5 : fontSymbolLookup :=
  newFontSymbolLookup (glyph "B" 3 10 50) 5 0 1.
Definition thinB15 : fontSymbolLookup :=
  newFontSymbolLookup (glyph "B" 3 10 50) 15 0 1.
Definition wideA0 : fontSymbolLookup :=
  newFontSymbolLookup (glyph "A" 10 10 50) 0 0 1.
Definition wideB5 : fontSymbolLookup :=
  newFontSymbolLookup (glyph "B" 10 10 50) 5 0 1.

(** Two lines: A and B on the first, C below A. *)
Definition gridA : fontSymbolLookup :=
  newFontSymbolLookup (glyph "A" 10 10 50) 0 0 1.
Definition gridB : fontSymbolLookup :=
  newFontSymbolLookup (glyph "B" 10 10 50) 10 0 1.
Definition gridC : fontSymbolLookup :=
  newFontSymbolLookup (glyph "C" 10 10 50) 0 20 1.

(** Glyphs 10 wide and 20 high at the grid positions (0,0), (10,0) and
    (0,20), and glyphs of 5 x 5 at the same positions. *)
Definition tallA : fontSymbolLookup :=
  newFontSymbolLookup (glyph "A" 10 20 50) 0 0 1.
Definition tallB : fontSymbolLookup :=
  newFontSymbolLookup (glyph "B" 10 20 50) 10 0 1.
Definition tallC : fontSymbolLookup :=
  newFontSymbolLookup (glyph "C" 10 20 50) 0 20 1.
Definition smallA : fontSymbolLookup :=
  newFontSymbolLookup (glyph "A" 5 5 20) 0 0 1.
Definition smallB : fontSymbolLookup :=
  newFontSymbolLookup (glyph "B" 5 5 20) 10 0 1.
Definition smallC : fontSymbolLookup :=
  newFontSymbolLookup (glyph "C" 5 5 20) 0 20 1.

(** A scanner that reports every template once, at the origin. *)
Definition scanOrigin (workers : Z) (symbols : list FontSymbol)
    (bi : imageBinary) (threshold : Q) (rect : Rectangle)
  : list fontSymbolLookup * option error :=
  (map (fun fs => newFontSymbolLookup fs 0 0 1) symbols, None).

(** A scanner that finds the i-th template at x = 25 i with quality
    (10 - i) / 10, and returns its candidates in the opposite order when
    more than one worker is used. *)
Definition scanSplit (workers : Z) (symbols : list FontSymbol)
    (bi : imageBinary) (threshold : Q) (rect : Rectangle)
  : list fontSymbolLookup * option error :=
  let found :=
    imap (fun i fs => newFontSymbolLookup fs (25 * Z.of_nat i) 0
                        (Z.of_nat (10 - i) # 10)) symbols in
  if workers <=? 1 then (found, None) else (rev found, None).

(** A sample file system: a missing directory, a directory whose second
    file has an ill-formed name, and a well-formed font directory. *)
Definition sampleStat (p : string) : option error :=
  if String.eqb p "fonts/missing" then Some (ErrNotExist p) else None.

Definition sampleReadDir (p : string) : result (list FileInfo) :=
  if String.eqb p "fonts/broken" then
    Ok [ {| Name := "0.png"; IsDir := false |};
         {| Name := "%zz.png"; IsDir := false |} ]
  else if String.eqb p "fonts/digits" then
    Ok [ {| Name := "%2F%E2%80%8B.png"; IsDir := false |};
         {| Name := ".hidden"; IsDir := false |};
         {| Name := "old"; IsDir := true |};
         {| Name := "0.png"; IsDir := false |} ]
  else Err (ErrNotExist p).

Definition sampleOpen (p : string) : result string := Ok p.

Definition sampleDecode (f : string) : result imageBinary :=
  Ok {| ib_width := 3; ib_height := 4; ib_size := 5 |}.

Definition sampleLoadFont : string -> OCR -> OCR * option error :=
  LoadFont string imageBinary sampleStat sampleReadDir sampleOpen sampleDecode
           id id.

Definition sampleLoadSymbol : string -> string -> result FontSymbol :=
  loadSymbol string imageBinary sampleOpen sampleDecode id id.

Ltac split_elems :=
  repeat match goal with
    | H : _ ∈ [] |- _ => by apply not_elem_of_nil in H
    | H : _ ∈ _ :: _ |- _ => apply elem_of_cons in H; destruct H as [-> | H]
    end.

Ltac strict_total_by_cases :=
  repeat split;
  [ intros ? Ha | intros ? ? ? Ha Hb Hc | intros ? ? Ha Hb ];
  split_elems; vm_compute; congruence.

(** ** Further sample data and predicates *)

(** Three candidates of sizes 50, 30 and 10 whose quality grows as their
    size shrinks. *)
Definition cycA : fontSymbolLookup :=
  newFontSymbolLookup (glyph "A" 10 10 50) 0 0 (5 # 10).
Definition cycB : fontSymbolLookup :=
  newFontSymbolLookup (glyph "B" 10 10 30) 20 0 (7 # 10).
Definition cycC : fontSymbolLookup :=
  newFontSymbolLookup (glyph "C" 10 10 10) 40 0 (9 # 10).

(** A large match of low quality over a small one of high quality. *)
Definition bigLow : fontSymbolLookup :=
  newFontSymbolLookup (glyph "8" 10 10 60) 0 0 (6 # 10).
Definition smallHigh : fontSymbolLookup :=
  newFontSymbolLookup (glyph "3" 8 10 20) 1 0 1.

(** A position and an advance small enough for the cursor arithmetic of
    the synthesis loop not to wrap. *)
Definition small_step (Advance : FontSymbol -> Z) (c : fontSymbolLookup)
  : Prop :=
  - 2 ^ 61 <= l_x c < 2 ^ 61 /\ 0 <= Advance (l_fs c) < 2 ^ 61.

(** ** The template pool and the font directory *)

(** Every symbol of a family is in the flat list that the scanner
    searches. *)
Definition families_in_pool (o : OCR) : Prop :=
  forall name family fs,
    fontFamilies o !! name = Some family -> fs ∈ family ->
    fs ∈ allSymbols o.

(** The directory entries that [loadFont] loads: neither directories nor
    names that start with a dot. *)
Definition visible (f : FileInfo) : bool :=
  negb (IsDir f || HasPrefix (Name f) ".").

(** * Properties *)

(** ** Integer arithmetic without overflow *)

Lemma wrap_id z : in_int z -> wrap z = z.
Proof.
  unfold in_int, int_min, int_max, wrap. intros Hz.
  rewrite Z.mod_small; lia.
Qed.

Lemma abs_nonneg z : 0 <= z -> abs z = z.
Proof.
  intros Hz. unfold abs. destruct (Z.ltb_spec z 0); [lia | reflexivity].
Qed.

(** ** Sorting under the contract of [sort.Slice] *)

Section SortFacts.

Context {A : Type} (less : A -> A -> bool).

Lemma StrictTotalOn_perm (l l' : list A) :
  l ≡ₚ l' -> StrictTotalOn less l -> StrictTotalOn less l'.
Proof.
  intros Hp (Hirr & Htr & Htot).
  assert (Hin : forall a, a ∈ l' -> a ∈ l) by (intros a; by rewrite Hp).
  repeat split; eauto.
Qed.

Lemma StrictTotalOn_asym (l : list A) a b :
  StrictTotalOn less l -> a ∈ l -> b ∈ l ->
  less a b = true -> less b a = false.
Proof.
  intros (Hirr & Htr & _) Ha Hb Hab.
  destruct (less b a) eqn:Hba; [| reflexivity].
  rewrite <- (Hirr a Ha). symmetry. by apply (Htr a b a).
Qed.

(** Below an element that is not less than [p] nothing is less than it
    either: the step that lets [sink] stop at the first failure. *)
Lemma not_less_below (l : list A) v p q :
  StrictTotalOn less l -> v ∈ l -> p ∈ l -> q ∈ l ->
  less v p = false -> less p q = false -> less v q = false.
Proof.
  intros Hst Hv Hp Hq Hvp Hpq.
  destruct (less v q) eqn:Hvq; [| reflexivity].
  destruct Hst as (Hirr & Htr & Htot).
  destruct (less q p) eqn:Hqp.
  - rewrite <- Hvp. symmetry. by apply (Htr v q p).
  - rewrite (Htot p q Hp Hq Hpq Hqp) in Hvp. congruence.
Qed.

End SortFacts.

Section SortUnique.

Context {A : Type} (less : A -> A -> bool).

(** A strict total order leaves one sorted arrangement only. *)
Lemma SortedBy_unique (l l1 l2 : list A) :
  StrictTotalOn less l -> l1 ≡ₚ l -> l2 ≡ₚ l ->
  SortedBy less l1 -> SortedBy less l2 -> l1 = l2.
Proof.
  intros (_ & _ & Htot) H1 H2 S1 S2.
  apply (StronglySorted_unique_strong (fun a b => less b a = false));
    [| assumption | assumption | by rewrite H1, H2].
  intros a b Ha Hb Hba Hab.
  apply Htot; [by rewrite <- H1 | by rewrite <- H2 | assumption..].
Qed.

(** [sink] and the sorted prefix, read backwards. *)
Lemma sink_perm v (rp : list A) : sink less v rp ≡ₚ v :: rp.
Proof.
  induction rp as [| p ps IH]; simpl; [reflexivity |].
  destruct (less v p); [| reflexivity].
  rewrite IH. apply Permutation_swap.
Qed.

Lemma sink_sorted (l : list A) v rp :
  StrictTotalOn less l -> v ∈ l -> (forall a, a ∈ rp -> a ∈ l) ->
  StronglySorted (fun a b => less a b = false) rp ->
  StronglySorted (fun a b => less a b = false) (sink less v rp).
Proof.
  intros Hst Hv. induction rp as [| p ps IH]; intros Hin Hs; simpl.
  - repeat constructor.
  - apply StronglySorted_inv in Hs as [Hps Hp].
    assert (Hpl : p ∈ l) by (apply Hin; left).
    assert (Hinps : forall a, a ∈ ps -> a ∈ l)
      by (intros a Ha; apply Hin; by right).
    destruct (less v p) eqn:Hvp.
    + constructor; [by apply IH |].
      rewrite sink_perm. constructor; [| assumption].
      by eapply StrictTotalOn_asym.
    + constructor; [by constructor |].
      constructor; [assumption |].
      rewrite Forall_forall in Hp |- *. intros q Hq.
      eapply not_less_below; eauto.
Qed.

Lemma fold_sink_perm (data rp : list A) :
  fold_left (fun rprefix v => sink less v rprefix) data rp ≡ₚ data ++ rp.
Proof.
  revert rp. induction data as [| v data IH]; intros rp; simpl;
    [reflexivity |].
  rewrite IH, sink_perm. by rewrite Permutation_middle.
Qed.

Lemma fold_sink_sorted (l data rp : list A) :
  StrictTotalOn less l ->
  (forall a, a ∈ data -> a ∈ l) -> (forall a, a ∈ rp -> a ∈ l) ->
  StronglySorted (fun a b => less a b = false) rp ->
  StronglySorted (fun a b => less a b = false)
    (fold_left (fun rprefix v => sink less v rprefix) data rp).
Proof.
  intros Hst. revert rp.
  induction data as [| v data IH]; intros rp Hd Hr Hs; simpl;
    [assumption |].
  apply IH.
  - intros a Ha. apply Hd. by right.
  - intros a Ha. rewrite sink_perm in Ha.
    inversion Ha; subst; [apply Hd; left | by apply Hr].
  - apply (sink_sorted l); auto. apply Hd. left.
Qed.

Lemma rev_sorted (rp : list A) :
  StronglySorted (fun a b => less a b = false) rp ->
  SortedBy less (rev rp).
Proof.
  unfold SortedBy. induction 1 as [| p ps Hs IH Hp]; simpl; [constructor |].
  apply StronglySorted_app_2; [| assumption | repeat constructor].
  intros a b Ha Hb. rewrite list_elem_of_singleton in Hb. subst b.
  rewrite Forall_forall in Hp. apply Hp.
  by rewrite list_elem_of_In, <- in_rev, <- list_elem_of_In in Ha.
Qed.

End SortUnique.

(** Go's insertion sort meets the contract. *)
Lemma insertionSort_contract : SortContract insertionSort.
Proof.
  intros A less l. unfold insertionSort. split.
  - rewrite <- Permutation_rev, fold_sink_perm. by rewrite app_nil_r.
  - intros Hst. apply rev_sorted.
    apply (fold_sink_sorted less l); auto; [| constructor].
    intros a Ha. inversion Ha.
Qed.

(** ** [maxSize] does not depend on the order of the list *)

Lemma maxSize_fold_perm (l1 l2 : list fontSymbolLookup) :
  l1 ≡ₚ l2 ->
  forall m,
    fold_left (fun m i => Z.max m (ib_size (image (l_fs i)))) l1 m =
    fold_left (fun m i => Z.max m (ib_size (image (l_fs i)))) l2 m.
Proof.
  induction 1 as [| c l1 l2 _ IH | c d l | l1 l2 l3 _ IH1 _ IH2];
    intros m; simpl.
  - reflexivity.
  - apply IH.
  - f_equal. lia.
  - by rewrite IH1.
Qed.

Lemma biggerFirst_perm (l1 l2 : list fontSymbolLookup) :
  l1 ≡ₚ l2 -> biggerFirst l1 = biggerFirst l2.
Proof.
  intros Hp. unfold biggerFirst, maxSize2, maxSize.
  by rewrite (maxSize_fold_perm l1 l2 Hp 0).
Qed.

(** ** The first candidate in priority order always survives *)

Lemma deleteSymbol_first (all : list fontSymbolLookup) j :
  deleteSymbol all (S j) !! 0%nat = all !! 0%nat.
Proof. by destruct all. Qed.

Lemma suppress_from_first fuel kk (all : list fontSymbolLookup) j :
  suppress_from fuel kk all (S j) !! 0%nat = all !! 0%nat.
Proof.
  revert all j. induction fuel as [| fuel IH]; intros all j; simpl;
    [reflexivity |].
  destruct (all !! S j) as [jj |]; [| reflexivity].
  destruct (cross kk jj).
  - by rewrite IH, deleteSymbol_first.
  - apply IH.
Qed.

Lemma suppress_loop_first n k (all : list fontSymbolLookup) :
  suppress_loop n k all !! 0%nat = all !! 0%nat.
Proof.
  revert k all. induction n as [| n IH]; intros k all; simpl;
    [reflexivity |].
  rewrite IH. destruct (all !! k); [apply suppress_from_first | reflexivity].
Qed.

Lemma suppress_first (all : list fontSymbolLookup) :
  suppress all !! 0%nat = all !! 0%nat.
Proof. apply suppress_loop_first. Qed.

Lemma perm_first_some {A} (l l' : list A) :
  l ≡ₚ l' -> l' <> [] -> exists a, l !! 0%nat = Some a.
Proof.
  intros Hp Hne. destruct l as [| a l]; [| by exists a].
  apply Permutation_nil in Hp. contradiction.
Qed.

(** [filterAndArrange] does not panic on a non-empty candidate list. *)
Lemma filterAndArrange_total Advance sortSlice (all : list fontSymbolLookup) :
  SortContract sortSlice -> all <> [] ->
  exists text, filterAndArrange Advance sortSlice all = Some text.
Proof.
  intros Hsort Hne. unfold filterAndArrange, resolveOverlaps, synthesize.
  destruct (Hsort _ (biggerFirst all) all) as [Hp1 _].
  destruct (perm_first_some _ _ Hp1 Hne) as [a Ha].
  rewrite <- suppress_first in Ha.
  set (kept := suppress (sortSlice _ (biggerFirst all) all)) in *.
  destruct (Hsort _ comesAfter kept) as [Hp2 _].
  assert (Hk : kept <> []) by (intros E; by rewrite E in Ha).
  destruct (perm_first_some _ _ Hp2 Hk) as [b Hb].
  rewrite Hb. eauto.
Qed.

(** On a list that the priority comparator orders strictly and totally the
    first sort has one possible outcome, whatever the order of the input. *)
Lemma priority_sort_perm sortSlice (l1 l2 : list fontSymbolLookup) :
  SortContract sortSlice -> l1 ≡ₚ l2 ->
  StrictTotalOn (biggerFirst l1) l1 ->
  sortSlice _ (biggerFirst l1) l1 = sortSlice _ (biggerFirst l2) l2.
Proof.
  intros Hsort Hp Hst.
  rewrite <- (biggerFirst_perm l1 l2 Hp).
  destruct (Hsort _ (biggerFirst l1) l1) as [Hp1 Hs1].
  destruct (Hsort _ (biggerFirst l1) l2) as [Hp2 Hs2].
  apply (SortedBy_unique (biggerFirst l1) l1); auto.
  - by rewrite Hp2.
  - apply Hs2. by apply (StrictTotalOn_perm _ l1).
Qed.

Lemma filterAndArrange_perm Advance sortSlice (l1 l2 : list fontSymbolLookup) :
  SortContract sortSlice -> l1 ≡ₚ l2 ->
  StrictTotalOn (biggerFirst l1) l1 ->
  filterAndArrange Advance sortSlice l1 = filterAndArrange Advance sortSlice l2.
Proof.
  intros Hsort Hp Hst. unfold filterAndArrange, resolveOverlaps.
  by rewrite (priority_sort_perm sortSlice l1 l2).
Qed.

(** ** Order of the candidate list *)

(** C1 (as stated, refuted): three candidates of equal size and quality,
    the middle one overlapping both neighbours, give "AC" in one input
    order and "B" in another. *)
Lemma filterAndArrange_order_matters :
  [rowA; rowB; rowC] ≡ₚ [rowB; rowA; rowC] /\
  filterAndArrange width insertionSort [rowA; rowB; rowC] = Some "AC"%string /\
  filterAndArrange width insertionSort [rowB; rowA; rowC] = Some "B"%string.
Proof.
  split; [apply Permutation_swap |].
  split; vm_compute; reflexivity.
Qed.

(** C1 (amended): on a non-empty candidate list that the priority comparator
    orders strictly and totally (no two distinct candidates tie),
    [filterAndArrange] returns the same text for every permutation of the
    list; and [recognize] returns the same text for two worker counts whose
    scans are permutations of each other. *)
Theorem filterAndArrange_order_independent
    (Advance : FontSymbol -> Z)
    (sortSlice : forall A : Type, (A -> A -> bool) -> list A -> list A)
    (Hsort : SortContract sortSlice) :
  (forall l1 l2 : list fontSymbolLookup,
      l1 <> [] -> l1 ≡ₚ l2 -> StrictTotalOn (biggerFirst l1) l1 ->
      exists text,
        filterAndArrange Advance sortSlice l1 = Some text /\
        filterAndArrange Advance sortSlice l2 = Some text) /\
  (forall findAllInParallel (o1 oN : OCR) bi rect found1 foundN,
      allSymbols o1 = allSymbols oN -> threshold o1 = threshold oN ->
      findAllInParallel (numThreads o1) (allSymbols o1) bi (threshold o1) rect
        = (found1, None) ->
      findAllInParallel (numThreads oN) (allSymbols oN) bi (threshold oN) rect
        = (foundN, None) ->
      found1 ≡ₚ foundN -> StrictTotalOn (biggerFirst found1) found1 ->
      exists r,
        recognize Advance sortSlice findAllInParallel o1 bi rect = Some r /\
        recognize Advance sortSlice findAllInParallel oN bi rect = Some r).
Proof.
  assert (Hfa : forall l1 l2 : list fontSymbolLookup,
      l1 <> [] -> l1 ≡ₚ l2 -> StrictTotalOn (biggerFirst l1) l1 ->
      exists text,
        filterAndArrange Advance sortSlice l1 = Some text /\
        filterAndArrange Advance sortSlice l2 = Some text).
  { intros l1 l2 Hne Hp Hst.
    destruct (filterAndArrange_total Advance sortSlice l1 Hsort Hne)
      as [text Ht].
    exists text. split; [assumption |].
    by rewrite <- (filterAndArrange_perm Advance sortSlice l1 l2). }
  split; [exact Hfa |].
  intros findAll o1 oN bi rect found1 foundN Hsym Hthr H1 HN Hp Hst.
  unfold recognize. rewrite H1, HN.
  destruct found1 as [| c found1].
  - apply Permutation_nil in Hp. subst foundN. simpl. eauto.
  - destruct (Hfa (c :: found1) foundN) as (text & Ht1 & Ht2);
      [discriminate | assumption | assumption |].
    assert (HlenN : Nat.eqb (length foundN) 0 = false).
    { rewrite <- (Permutation_length Hp). reflexivity. }
    rewrite HlenN, Ht1, Ht2. simpl. eauto.
Qed.

Lemma filterAndArrange_order_independent_witness :
  (exists text,
      filterAndArrange width insertionSort [farA; farB] = Some text /\
      filterAndArrange width insertionSort [farB; farA] = Some text) /\
  (exists r,
      recognize width insertionSort scanSplit
        (AddSymbols [glyph "A" 10 10 50; glyph "B" 10 10 50] (NewOCR 0 [1]))
        (Build_imageBinary 40 10 0) ZR = Some r /\
      recognize width insertionSort scanSplit
        (AddSymbols [glyph "A" 10 10 50; glyph "B" 10 10 50] (NewOCR 0 [4]))
        (Build_imageBinary 40 10 0) ZR = Some r).
Proof.
  split.
  - apply (proj1 (filterAndArrange_order_independent width insertionSort
                    insertionSort_contract)).
    + discriminate.
    + apply Permutation_swap.
    + strict_total_by_cases.
  - apply (proj2 (filterAndArrange_order_independent width insertionSort
                    insertionSort_contract) scanSplit _ _ _ _
             [farA; farB] [farB; farA]).
    + reflexivity.
    + reflexivity.
    + reflexivity.
    + reflexivity.
    + apply Permutation_swap.
    + strict_total_by_cases.
Defined.

(** ** The priority comparator *)

Lemma abs_diff_sizes a b :
  0 <= a <= int_max -> 0 <= b <= int_max ->
  abs (sub (abs a) (abs b)) = Z.abs (a - b).
Proof.
  intros Ha Hb. rewrite (abs_nonneg a), (abs_nonneg b) by lia.
  unfold sub. rewrite wrap_id by (unfold in_int, int_min, int_max in *; lia).
  unfold abs. destruct (Z.ltb_spec (a - b) 0).
  - rewrite wrap_id by (unfold in_int, int_min, int_max in *; lia). lia.
  - lia.
Qed.

Lemma Qminus_eq_zero (p q : Q) : (p - q == 0)%Q <-> (p == q)%Q.
Proof.
  split; intros H.
  - apply (Qplus_inj_r p q (- q)). rewrite Qplus_opp_r. exact H.
  - rewrite H. apply Qplus_opp_r.
Qed.

Lemma Qpos_b_minus (p q : Q) : Qpos_b (p - q) = true <-> (q < p)%Q.
Proof.
  unfold Qpos_b. rewrite (Qlt_minus_iff q p), (Qlt_alt 0 (p + - q)).
  change (p - q)%Q with (p + - q)%Q.
  destruct (0 ?= p + - q)%Q; split; intros H; congruence.
Qed.

Lemma biggerThan_spec (l other : fontSymbolLookup) (m2 : Z) :
  0 <= l_size l <= int_max -> 0 <= l_size other <= int_max ->
  biggerThan l other m2 = true <->
  (m2 <= Z.abs (l_size l - l_size other) /\ l_size other < l_size l) \/
  (Z.abs (l_size l - l_size other) < m2 /\
   ((l_g other < l_g l)%Q \/
    ((l_g l == l_g other)%Q /\ l_size other < l_size l))).
Proof.
  intros Hl Ho. unfold biggerThan. rewrite abs_diff_sizes by assumption.
  destruct (Z.leb_spec m2 (Z.abs (l_size l - l_size other))) as [Hbig | Hclose].
  - rewrite Z.ltb_lt. split.
    + intros H. left. split; assumption.
    + intros [[_ H] | [H _]]; [assumption | lia].
  - destruct (Qeq_bool (l_g l - l_g other) 0) eqn:Hq; simpl.
    + apply Qeq_bool_iff in Hq. apply (proj1 (Qminus_eq_zero _ _)) in Hq.
      rewrite Z.ltb_lt. split.
      * intros H. right. split; [assumption |]. right. split; assumption.
      * intros [[H _] | [_ [H | [_ H]]]]; [lia | | assumption].
        rewrite Hq in H. apply Qlt_irrefl in H. contradiction.
    + apply Qeq_bool_neq in Hq. rewrite Qpos_b_minus. split.
      * intros H. right. split; [assumption |]. left. assumption.
      * intros [[H _] | [_ [H | [H _]]]]; [lia | assumption |].
        exfalso. apply Hq. apply Qminus_eq_zero. assumption.
Qed.

(** [maxSize] is the largest ink size of the list (and 0 on the empty
    list). *)
Lemma maxSize_fold_bounds (l : list fontSymbolLookup) (m : Z) :
  let r := fold_left (fun m i => Z.max m (ib_size (image (l_fs i)))) l m in
  m <= r /\
  (forall c, c ∈ l -> ib_size (image (l_fs c)) <= r) /\
  (r = m \/ exists c, c ∈ l /\ ib_size (image (l_fs c)) = r).
Proof.
  revert m. induction l as [| a l IH]; intros m; simpl.
  - repeat split; [lia | | by left]. intros c Hc. inversion Hc.
  - destruct (IH (Z.max m (ib_size (image (l_fs a))))) as (Hm & Hub & Hat).
    repeat split.
    + lia.
    + intros c Hc. apply elem_of_cons in Hc as [-> | Hc]; [lia | by apply Hub].
    + destruct Hat as [Hat | (c & Hc & Hat)].
      * destruct (Z.max_spec m (ib_size (image (l_fs a)))) as [[_ E] | [_ E]].
        -- right. exists a. split; [left | congruence].
        -- left. congruence.
      * right. exists c. split; [by right | assumption].
Qed.

Lemma maxSize_is_max (l : list fontSymbolLookup) :
  l <> [] -> Forall size_ok l ->
  (exists c, c ∈ l /\ l_size c = maxSize l) /\
  (forall c, c ∈ l -> l_size c <= maxSize l).
Proof.
  intros Hne Hok. rewrite Forall_forall in Hok.
  destruct (maxSize_fold_bounds l 0) as (H0 & Hub & Hat). fold (maxSize l) in *.
  assert (Hub' : forall c, c ∈ l -> l_size c <= maxSize l).
  { intros c Hc. destruct (Hok c Hc) as [_ ->]. by apply Hub. }
  split; [| exact Hub'].
  destruct Hat as [Hz | (c & Hc & Hat)].
  - destruct l as [| c l]; [contradiction |].
    exists c. split; [left |].
    assert (Hc : c ∈ c :: l) by left.
    specialize (Hub' c Hc). destruct (Hok c Hc) as [[? ?] _]. lia.
  - exists c. split; [assumption |]. destruct (Hok c Hc) as [_ ->]. assumption.
Qed.

(** C2: among candidates with well-formed sizes, [biggerFirst] puts [a]
    before [b] exactly when, with [halfMax] the integer half of the largest
    size of the list, either the sizes differ by at least [halfMax] and [a]
    is the larger, or they differ by less and [a] has the strictly higher
    quality, or equal quality and the larger size. *)
Theorem biggerFirst_priority (list : list fontSymbolLookup)
    (a b : fontSymbolLookup) :
  a ∈ list -> b ∈ list -> Forall size_ok list ->
  exists maxSz,
    (exists c, c ∈ list /\ l_size c = maxSz) /\
    (forall c, c ∈ list -> l_size c <= maxSz) /\
    (biggerFirst list a b = true <->
     (maxSz / 2 <= Z.abs (l_size a - l_size b) /\ l_size b < l_size a) \/
     (Z.abs (l_size a - l_size b) < maxSz / 2 /\
      ((l_g b < l_g a)%Q \/
       ((l_g a == l_g b)%Q /\ l_size b < l_size a)))).
Proof.
  intros Ha Hb Hok.
  assert (Hne : list <> []) by (intros ->; inversion Ha).
  destruct (maxSize_is_max list Hne Hok) as [Hat Hub].
  exists (maxSize list). split; [assumption |]. split; [assumption |].
  rewrite Forall_forall in Hok.
  destruct (Hok a Ha) as [Hra _]. destruct (Hok b Hb) as [Hrb _].
  unfold biggerFirst, maxSize2.
  assert (Hnn : 0 <= maxSize list) by (specialize (Hub a Ha); lia).
  rewrite Z.quot_div_nonneg by lia.
  by apply biggerThan_spec.
Qed.

Lemma biggerFirst_priority_witness :
  exists maxSz,
    (exists c, c ∈ [farA; farB] /\ l_size c = maxSz) /\
    (forall c, c ∈ [farA; farB] -> l_size c <= maxSz) /\
    (biggerFirst [farA; farB] farA farB = true <->
     (maxSz / 2 <= Z.abs (l_size farA - l_size farB) /\
      l_size farB < l_size farA) \/
     (Z.abs (l_size farA - l_size farB) < maxSz / 2 /\
      ((l_g farB < l_g farA)%Q \/
       ((l_g farA == l_g farB)%Q /\ l_size farB < l_size farA)))).
Proof.
  apply (biggerFirst_priority [farA; farB] farA farB).
  - left.
  - right. left.
  - repeat constructor; vm_compute; congruence.
Defined.

(** ** The reading-order comparator *)

Lemma add_small a b :
  - 2 ^ 62 <= a < 2 ^ 62 -> 0 <= b < 2 ^ 62 -> add a b = a + b.
Proof.
  intros Ha Hb. unfold add. apply wrap_id.
  unfold in_int, int_min, int_max. lia.
Qed.

Lemma sub_small a b :
  - 2 ^ 62 <= a < 2 ^ 62 -> - 2 ^ 62 <= b < 2 ^ 62 -> sub a b = a - b.
Proof.
  intros Ha Hb. unfold sub. apply wrap_id.
  unfold in_int, int_min, int_max. lia.
Qed.

Lemma yCross_spec (l f : fontSymbolLookup) :
  coords_ok l -> coords_ok f ->
  yCross l f = true <->
  (l_y l <= l_y f <= l_y l + height (l_fs l)) \/
  (l_y l <= l_y f + height (l_fs f) <= l_y l + height (l_fs l)).
Proof.
  intros (_ & Hly & Hlh & _) (_ & Hfy & Hfh & _). unfold yCross.
  rewrite !add_small by assumption.
  rewrite orb_true_iff, !andb_true_iff, !Z.leb_le. lia.
Qed.

Lemma comesAfter_spec (l f : fontSymbolLookup) :
  coords_ok l -> coords_ok f ->
  comesAfter l f = true <->
  (if yCross l f
   then l_x l < l_x f \/ (l_x l = l_x f /\ l_y l < l_y f)
   else l_y l < l_y f \/ (l_y l = l_y f /\ l_x l < l_x f)).
Proof.
  intros (Hlx & Hly & _) (Hfx & Hfy & _). unfold comesAfter.
  rewrite !sub_small by assumption.
  set (dx := l_x l - l_x f). set (dy := l_y l - l_y f).
  destruct (yCross l f); cbn [negb]; cbv iota; rewrite ?Z.eqb_refl;
    repeat (cbv iota;
            match goal with
            | |- context [?d =? 0] => is_var d; destruct (Z.eqb_spec d 0)
            end);
    cbv iota; rewrite Z.ltb_lt; subst dx dy; lia.
Qed.

Lemma comesAfter_irrefl (l : fontSymbolLookup) : comesAfter l l = false.
Proof.
  unfold comesAfter, sub. rewrite !Z.sub_diag.
  change (wrap 0) with 0. by destruct (yCross l l).
Qed.

(** C3 (as stated, refuted): [comesAfter] is not transitive.  Of three
    pairwise non-overlapping candidates, C comes before B and B before A,
    yet C does not come before A: A comes before C. *)
Lemma comesAfter_cycle :
  cross stairA stairB = false /\ cross stairB stairC = false /\
  cross stairA stairC = false /\
  comesAfter stairC stairB = true /\ comesAfter stairB stairA = true /\
  comesAfter stairC stairA = false /\ comesAfter stairA stairC = true.
Proof. vm_compute. repeat split; reflexivity. Qed.

(** Nor is it total, nor does it see every vertical overlap: a short
    candidate lying within the vertical span of a taller one further right
    is ordered neither before nor after it, and [yCross] holds in one
    direction only. *)
Lemma comesAfter_incomparable :
  shortL <> tallF /\
  comesAfter shortL tallF = false /\ comesAfter tallF shortL = false /\
  yCross shortL tallF = false /\ yCross tallF shortL = true.
Proof. vm_compute. repeat split; try reflexivity. discriminate. Qed.

(** C3 (amended): for candidates with in-range coordinates and non-negative
    heights, [l.yCross(f)] holds exactly when the top or the bottom edge of
    [f] lies within the vertical extent of [l]; [comesAfter] then orders by
    ascending x (equal x: ascending y), and otherwise by ascending y; it is
    irreflexive and asymmetric.  (It is neither transitive nor total.) *)
Theorem comesAfter_reading_order (l f : fontSymbolLookup) :
  coords_ok l -> coords_ok f ->
  (yCross l f = true <->
     (l_y l <= l_y f <= l_y l + height (l_fs l)) \/
     (l_y l <= l_y f + height (l_fs f) <= l_y l + height (l_fs l))) /\
  (yCross l f = true ->
     (comesAfter l f = true <->
      l_x l < l_x f \/ (l_x l = l_x f /\ l_y l < l_y f))) /\
  (yCross l f = false -> (comesAfter l f = true <-> l_y l < l_y f)) /\
  comesAfter l l = false /\
  (comesAfter l f = true -> comesAfter f l = false).
Proof.
  intros Hl Hf.
  pose proof (yCross_spec l f Hl Hf) as Hyc.
  pose proof (yCross_spec f l Hf Hl) as Hyc'.
  pose proof (comesAfter_spec l f Hl Hf) as Hca.
  pose proof (comesAfter_spec f l Hf Hl) as Hca'.
  destruct Hl as (_ & _ & Hlh & _), Hf as (_ & _ & Hfh & _).
  split; [exact Hyc |]. split; [| split; [| split]].
  - intros E. by rewrite E in Hca.
  - intros E. rewrite E in Hca. rewrite Hca.
    assert (Hn : ~ (l_y l <= l_y f <= l_y l + height (l_fs l)))
      by (intros H; assert (yCross l f = true) by (apply Hyc; by left);
          congruence).
    lia.
  - apply comesAfter_irrefl.
  - intros Hlf. apply Hca in Hlf.
    destruct (comesAfter f l) eqn:Hfl; [| reflexivity]. exfalso.
    apply proj1 in Hca'. specialize (Hca' eq_refl).
    destruct (yCross l f), (yCross f l);
      repeat match goal with
        | H : true = true <-> _ |- _ =>
            apply proj1 in H; specialize (H eq_refl)
        | H : false = true <-> ?P |- _ =>
            assert (~ P) by (intros HP; apply H in HP; discriminate);
            clear H
        end;
      lia.
Qed.

Lemma comesAfter_reading_order_witness :
  comesAfter stairB stairA = true /\ comesAfter stairA stairB = false.
Proof.
  destruct (comesAfter_reading_order stairB stairA)
    as (_ & _ & _ & _ & Hasym);
    [unfold coords_ok; simpl; lia | unfold coords_ok; simpl; lia |].
  split; [reflexivity | apply Hasym; reflexivity].
Defined.

(** ** Suppression as a greedy filter *)

Lemma deleteSymbol_at (l1 l2 : list fontSymbolLookup) jj :
  deleteSymbol (l1 ++ jj :: l2) (length l1) = l1 ++ l2.
Proof.
  unfold deleteSymbol.
  rewrite take_app_length.
  replace (S (length l1)) with (length (l1 ++ [jj]))
    by (rewrite length_app; simpl; lia).
  replace (l1 ++ jj :: l2) with ((l1 ++ [jj]) ++ l2)
    by (by rewrite <- app_assoc).
  by rewrite drop_app_length.
Qed.

(** With enough turns the inner loop, started at the end of [l1], removes
    from [l2] exactly the candidates that cross [kk]. *)
Lemma suppress_from_filter fuel kk (l1 l2 : list fontSymbolLookup) :
  (length l2 <= fuel)%nat ->
  suppress_from fuel kk (l1 ++ l2) (length l1) =
  l1 ++ List.filter (fun jj => negb (cross kk jj)) l2.
Proof.
  revert l1 l2. induction fuel as [| fuel IH]; intros l1 l2 Hfuel.
  - destruct l2; [simpl; by rewrite !app_nil_r | simpl in Hfuel; lia].
  - cbn [suppress_from]. destruct l2 as [| jj l2].
    + simpl. rewrite !app_nil_r, lookup_ge_None_2 by lia. reflexivity.
    + rewrite list_lookup_middle by reflexivity. simpl in Hfuel.
      cbn [List.filter]. destruct (cross kk jj); cbn [negb].
      * rewrite deleteSymbol_at. apply IH. lia.
      * replace (l1 ++ jj :: l2) with ((l1 ++ [jj]) ++ l2)
          by (by rewrite <- app_assoc).
        replace (S (length l1)) with (length (l1 ++ [jj]))
          by (rewrite length_app; simpl; lia).
        rewrite IH by lia. by rewrite <- app_assoc.
Qed.

Lemma suppress_loop_past n k (all : list fontSymbolLookup) :
  (length all <= k)%nat -> suppress_loop n k all = all.
Proof.
  revert k. induction n as [| n IH]; intros k Hk; [reflexivity |].
  cbn [suppress_loop]. rewrite lookup_ge_None_2 by assumption.
  apply IH. lia.
Qed.

Lemma filter_length_le {A} (f : A -> bool) (l : list A) :
  (length (List.filter f l) <= length l)%nat.
Proof.
  induction l as [| a l IH]; simpl; [lia |]. destruct (f a); simpl; lia.
Qed.

Lemma suppress_loop_greedy n (l1 l2 : list fontSymbolLookup) :
  (length l2 <= n)%nat ->
  suppress_loop n (length l1) (l1 ++ l2) = l1 ++ greedy n l2.
Proof.
  revert l1 l2. induction n as [| n IH]; intros l1 l2 Hn.
  - destruct l2; [reflexivity | simpl in Hn; lia].
  - destruct l2 as [| kk rest].
    + rewrite suppress_loop_past by (rewrite length_app; simpl; lia).
      reflexivity.
    + cbn [suppress_loop greedy].
      rewrite list_lookup_middle by reflexivity.
      replace (l1 ++ kk :: rest) with ((l1 ++ [kk]) ++ rest)
        by (by rewrite <- app_assoc).
      replace (S (length l1)) with (length (l1 ++ [kk]))
        by (rewrite length_app; simpl; lia).
      rewrite suppress_from_filter by (rewrite !length_app; simpl; lia).
      rewrite IH.
      * by rewrite <- app_assoc.
      * pose proof (filter_length_le (fun jj => negb (cross kk jj)) rest).
        simpl in Hn. lia.
Qed.

(** The suppression loop is the greedy filter. *)
Lemma suppress_greedy (all : list fontSymbolLookup) :
  suppress all = greedy (length all) all.
Proof. apply (suppress_loop_greedy (length all) [] all). lia. Qed.

Lemma greedy_subset n (all : list fontSymbolLookup) c :
  In c (greedy n all) -> In c all.
Proof.
  revert all. induction n as [| n IH]; intros all; [contradiction |].
  destruct all as [| kk rest]; [contradiction |]. cbn [greedy].
  intros [-> | Hc]; [by left |]. right.
  apply IH in Hc. apply filter_In in Hc. tauto.
Qed.

(** No survivor crosses a later survivor. *)
Lemma greedy_no_cross n (all : list fontSymbolLookup) :
  StronglySorted (fun c d => cross c d = false) (greedy n all).
Proof.
  revert all. induction n as [| n IH]; intros all; [constructor |].
  destruct all as [| kk rest]; [constructor |]. cbn [greedy].
  constructor; [apply IH |].
  apply List.Forall_forall. intros d Hd.
  apply greedy_subset, filter_In in Hd. destruct Hd as [_ Hd].
  by apply negb_true_iff in Hd.
Qed.

(** A candidate crossed by nothing but copies of itself among those
    placed before it survives. *)
Lemma greedy_keeps n (s1 s2 : list fontSymbolLookup) a :
  (length (s1 ++ a :: s2) <= n)%nat ->
  List.Forall (fun c => cross c a = false \/ c = a) s1 ->
  In a (greedy n (s1 ++ a :: s2)).
Proof.
  revert s1 s2. induction n as [| n IH]; intros s1 s2 Hn Hs1.
  - rewrite length_app in Hn. simpl in Hn. lia.
  - destruct s1 as [| c s1]; [by left |].
    cbn [app greedy]. apply Forall_cons_iff in Hs1 as [[Hc | ->] Hs1];
      [| by left].
    right. rewrite List.filter_app. cbn [List.filter]. rewrite Hc. cbn [negb].
    apply IH.
    + pose proof (filter_length_le (fun jj => negb (cross c jj)) s1).
      pose proof (filter_length_le (fun jj => negb (cross c jj)) s2).
      rewrite length_app in *. cbn [length] in *. lia.
    + apply List.Forall_forall. intros d Hd. apply filter_In in Hd.
      rewrite List.Forall_forall in Hs1. apply Hs1. tauto.
Qed.

Lemma sorted_pair_related {A} (R : A -> A -> Prop) (l : list A) a b :
  StronglySorted R l -> In a l -> In b l -> a <> b -> R a b \/ R b a.
Proof.
  induction 1 as [| x l Hs IH Hx]; intros Ha Hb Hne; [contradiction |].
  rewrite List.Forall_forall in Hx.
  destruct Ha as [-> | Ha], Hb as [-> | Hb].
  - contradiction.
  - left. by apply Hx.
  - right. by apply Hx.
  - by apply IH.
Qed.

Lemma Intersect_comm (r s : Rectangle) : Intersect r s = Intersect s r.
Proof.
  unfold Intersect.
  assert (E : forall a b, (if a <? b then b else a) = (if b <? a then a else b))
    by (intros a b; destruct (Z.ltb_spec a b), (Z.ltb_spec b a); lia).
  assert (E' : forall a b, (if b <? a then b else a) = (if a <? b then a else b))
    by (intros a b; destruct (Z.ltb_spec a b), (Z.ltb_spec b a); lia).
  rewrite (E (X (Min r))), (E (Y (Min r))).
  rewrite (E' (X (Max r))), (E' (Y (Max r))). reflexivity.
Qed.

Lemma cross_sym (l f : fontSymbolLookup) : cross l f = cross f l.
Proof. unfold cross. by rewrite Intersect_comm. Qed.

(** ** Quality dominance *)

Lemma biggerThan_irrefl (c : fontSymbolLookup) m2 :
  0 <= l_size c <= int_max -> biggerThan c c m2 = false.
Proof.
  intros Hc. destruct (biggerThan c c m2) eqn:E; [| reflexivity].
  apply (biggerThan_spec c c m2 Hc Hc) in E.
  destruct E as [[_ H] | [_ [H | [_ H]]]]; try lia.
  by apply Qlt_irrefl in H.
Qed.

Lemma biggerThan_quality_wins (a b : fontSymbolLookup) m2 :
  0 <= l_size a <= int_max -> 0 <= l_size b <= int_max ->
  Z.abs (l_size a - l_size b) < m2 -> (l_g b < l_g a)%Q ->
  biggerThan a b m2 = true /\ biggerThan b a m2 = false.
Proof.
  intros Ha Hb Hclose Hq. split.
  - apply biggerThan_spec; [assumption.. |]. right. split; [assumption |].
    by left.
  - destruct (biggerThan b a m2) eqn:E; [| reflexivity].
    apply (biggerThan_spec b a m2 Hb Ha) in E.
    destruct E as [[H _] | [_ [H | [H _]]]].
    + lia.
    + exfalso. apply (Qlt_irrefl (l_g a)). by apply (Qlt_trans _ (l_g b)).
    + rewrite H in Hq. by apply Qlt_irrefl in Hq.
Qed.

Lemma suppress_pair (a b : fontSymbolLookup) :
  cross a b = true -> suppress [a; b] = [a].
Proof.
  intros H. rewrite suppress_greedy. cbn [length greedy List.filter].
  rewrite H. reflexivity.
Qed.

(** When the two are the whole candidate list the better one is kept,
    whatever the order in which they are handed over. *)
Lemma better_of_pair_kept
    (sortSlice : forall A : Type, (A -> A -> bool) -> list A -> list A)
    (a b : fontSymbolLookup) (all : list fontSymbolLookup) :
  SortContract sortSlice ->
  all ≡ₚ [a; b] ->
  size_ok a -> size_ok b ->
  cross a b = true ->
  Z.abs (l_size a - l_size b) < Z.max (l_size a) (l_size b) / 2 ->
  (l_g b < l_g a)%Q ->
  resolveOverlaps sortSlice all = [a].
Proof.
  intros Hsort Hp [Hra Hia] [Hrb Hib] Hx Hclose Hq.
  assert (Hm2 : maxSize2 all = Z.max (l_size a) (l_size b) / 2).
  { unfold maxSize2, maxSize. rewrite (maxSize_fold_perm _ _ Hp 0). simpl.
    rewrite <- Hia, <- Hib. rewrite Z.quot_div_nonneg by lia. f_equal. lia. }
  destruct (biggerThan_quality_wins a b (maxSize2 all) Hra Hrb) as [Hab Hba];
    [by rewrite Hm2 | assumption |].
  assert (Hst : StrictTotalOn (biggerFirst all) all).
  { apply (StrictTotalOn_perm _ [a; b]); [by symmetry |].
    unfold biggerFirst.
    pose proof (biggerThan_irrefl a (maxSize2 all) Hra) as Haa.
    pose proof (biggerThan_irrefl b (maxSize2 all) Hrb) as Hbb.
    repeat split; intros; split_elems; congruence. }
  unfold resolveOverlaps.
  destruct (Hsort _ (biggerFirst all) all) as [Hps Hs].
  specialize (Hs Hst).
  pose proof (Permutation_sym (Permutation_trans Hps Hp)) as Hps'.
  apply Permutation_length_2_inv in Hps' as [E | E]; rewrite E in *.
  - by apply suppress_pair.
  - apply StronglySorted_inv in Hs as [_ Hs].
    apply Forall_inv in Hs. unfold biggerFirst in Hs. congruence.
Qed.

(** C4 (as stated, refuted): [chainHi] and [chainLo] overlap, have equal
    sizes, and [chainHi] has the higher quality; yet the resolver removes
    [chainHi] (crossed by the better [chainTop]) and keeps [chainLo]. *)
Lemma quality_dominance_chain :
  cross chainHi chainLo = true /\
  Z.abs (l_size chainHi - l_size chainLo)
    < maxSize2 [chainTop; chainHi; chainLo] /\
  (l_g chainLo < l_g chainHi)%Q /\
  resolveOverlaps insertionSort [chainTop; chainHi; chainLo]
    = [chainTop; chainLo].
Proof. vm_compute. repeat split; reflexivity. Qed.

(** C4 (amended): of two candidates whose bounding boxes intersect and
    whose sizes differ by less than [halfMax], the overlap resolver keeps
    the one of strictly higher quality and removes the other when they are
    the whole candidate list, in whichever order; and within a longer list
    (strictly and totally ordered by priority) whenever every further
    candidate crossing the better one does not outrank it. *)
Theorem quality_dominance
    (sortSlice : forall A : Type, (A -> A -> bool) -> list A -> list A)
    (a b : fontSymbolLookup) :
  SortContract sortSlice ->
  size_ok a -> size_ok b ->
  cross a b = true ->
  (l_g b < l_g a)%Q ->
  (Z.abs (l_size a - l_size b) < Z.max (l_size a) (l_size b) / 2 ->
   forall all, all ≡ₚ [a; b] -> resolveOverlaps sortSlice all = [a]) /\
  (forall all,
     a ∈ all -> b ∈ all ->
     StrictTotalOn (biggerFirst all) all ->
     Z.abs (l_size a - l_size b) < maxSize2 all ->
     (forall c, c ∈ all -> cross c a = true ->
                c = b \/ biggerFirst all c a = false) ->
     a ∈ resolveOverlaps sortSlice all /\
     b ∉ resolveOverlaps sortSlice all).
Proof.
  intros Hsort Hoka Hokb Hx Hq. split.
  - intros Hclose all Hp.
    by apply (better_of_pair_kept sortSlice a b all).
  - intros all Ha Hb Hst Hclose Hothers.
    destruct Hoka as [Hra _], Hokb as [Hrb _].
    destruct (biggerThan_quality_wins a b (maxSize2 all) Hra Hrb Hclose Hq)
      as [Hab Hba].
    unfold resolveOverlaps.
    destruct (Hsort _ (biggerFirst all) all) as [Hp Hs].
    specialize (Hs Hst).
    set (s := sortSlice _ (biggerFirst all) all) in *.
    assert (Has : a ∈ s) by (by rewrite Hp).
    apply list_elem_of_split in Has as (s1 & s2 & Es).
    assert (Hkeep : In a (greedy (length s) s)).
    { rewrite Es. apply greedy_keeps; [lia |].
      apply List.Forall_forall. intros c Hc. apply list_elem_of_In in Hc.
      destruct (cross c a) eqn:Exc; [right | by left].
      assert (Hcall : c ∈ all)
        by (rewrite <- Hp, Es; apply elem_of_app; by left).
      assert (Hac : biggerFirst all a c = false).
      { unfold SortedBy in Hs. rewrite Es in Hs.
        apply (StronglySorted_app_1_elem_of _ _ _ c a Hs);
          [assumption | left]. }
      destruct Hst as (_ & _ & Htot).
      apply Htot; [assumption.. | | assumption].
      destruct (Hothers c Hcall Exc) as [-> | Hca]; assumption. }
    rewrite suppress_greedy. split; [by apply list_elem_of_In |].
    intros Hbs. apply list_elem_of_In in Hbs.
    assert (Hne : a <> b).
    { intros ->. by apply Qlt_irrefl in Hq. }
    destruct (sorted_pair_related _ _ a b (greedy_no_cross _ s) Hkeep Hbs Hne)
      as [H | H].
    + congruence.
    + rewrite cross_sym in H. congruence.
Qed.

Lemma quality_dominance_witness :
  resolveOverlaps insertionSort [dupLo; dupHi] = [dupHi] /\
  (dupHi ∈ resolveOverlaps insertionSort [dupLo; dupHi] /\
   dupLo ∉ resolveOverlaps insertionSort [dupLo; dupHi]).
Proof.
  assert (Hok : forall c, c = dupHi \/ c = dupLo -> size_ok c).
  { intros c [-> | ->]; (split; [vm_compute; split; congruence | reflexivity]). }
  destruct (quality_dominance insertionSort dupHi dupLo
              insertionSort_contract (Hok _ (or_introl eq_refl))
              (Hok _ (or_intror eq_refl)) eq_refl eq_refl) as [Hpair Hlist].
  split.
  - apply Hpair; [vm_compute; reflexivity | apply Permutation_swap].
  - apply Hlist.
    + right. left.
    + left.
    + strict_total_by_cases.
    + vm_compute. reflexivity.
    + intros c Hc Hx. split_elems; [by left | right; reflexivity].
Defined.

(** ** Empty candidate lists *)

(** C5 (as stated, refuted): on the empty list [filterAndArrange] fails:
    [all[0]] is out of range. *)
Lemma filterAndArrange_empty_panics :
  filterAndArrange width insertionSort [] = None.
Proof. reflexivity. Qed.

(** C5 (amended): [filterAndArrange] fails on the empty list and returns a
    text on every non-empty one; for an empty candidate list it is
    [recognize] that yields the empty string, returning before the call. *)
Theorem empty_list_guarded_by_recognize
    (Advance : FontSymbol -> Z)
    (sortSlice : forall A : Type, (A -> A -> bool) -> list A -> list A) :
  SortContract sortSlice ->
  filterAndArrange Advance sortSlice [] = None /\
  (forall all, all <> [] ->
     exists text, filterAndArrange Advance sortSlice all = Some text) /\
  (forall findAllInParallel o bi rect,
     findAllInParallel (numThreads o) (allSymbols o) bi (threshold o) rect
       = ([], None) ->
     recognize Advance sortSlice findAllInParallel o bi rect
       = Some (EmptyString, None)).
Proof.
  intros Hsort. split; [| split].
  - unfold filterAndArrange, resolveOverlaps, synthesize.
    destruct (Hsort _ (biggerFirst []) []) as [Hp _].
    apply Permutation_nil_r in Hp. rewrite Hp.
    change (suppress []) with (@nil fontSymbolLookup).
    destruct (Hsort _ comesAfter []) as [Hp' _].
    apply Permutation_nil_r in Hp'. by rewrite Hp'.
  - intros all Hne. by apply filterAndArrange_total.
  - intros findAll o bi rect H. unfold recognize. by rewrite H.
Qed.

Lemma empty_list_guarded_by_recognize_witness :
  filterAndArrange width insertionSort [] = None /\
  (forall all, all <> [] ->
     exists text, filterAndArrange width insertionSort all = Some text) /\
  (forall findAllInParallel o bi rect,
     findAllInParallel (numThreads o) (allSymbols o) bi (threshold o) rect
       = ([], None) ->
     recognize width insertionSort findAllInParallel o bi rect
       = Some (EmptyString, None)).
Proof.
  apply (empty_list_guarded_by_recognize width insertionSort).
  apply insertionSort_contract.
Defined.

(** C9: when the scanner returns no candidate and no error, [recognize]
    returns the empty string and a nil error. *)
Theorem recognize_no_candidates
    (Advance : FontSymbol -> Z)
    (sortSlice : forall A : Type, (A -> A -> bool) -> list A -> list A)
    (findAllInParallel :
       Z -> list FontSymbol -> imageBinary -> Q -> Rectangle ->
       list fontSymbolLookup * option error)
    (o : OCR) (bi : imageBinary) (rect : Rectangle) :
  findAllInParallel (numThreads o) (allSymbols o) bi (threshold o) rect
    = ([], None) ->
  recognize Advance sortSlice findAllInParallel o bi rect
    = Some (EmptyString, None).
Proof. intros H. unfold recognize. by rewrite H. Qed.

Lemma recognize_no_candidates_witness :
  recognize width insertionSort scanOrigin (NewOCR (1 # 2) [])
    (Build_imageBinary 40 10 0) (Rect 0 0 39 9)
  = Some (EmptyString, None).
Proof.
  apply (recognize_no_candidates width insertionSort scanOrigin).
  reflexivity.
Defined.

(** ** Text synthesis *)

Lemma append_nil_l (s : string) : EmptyString +:+ s = s.
Proof. reflexivity. Qed.

Lemma append_cons c (s1 s2 : string) :
  String c s1 +:+ s2 = String c (s1 +:+ s2).
Proof. reflexivity. Qed.

Lemma append_assoc (s1 s2 s3 : string) :
  (s1 +:+ s2) +:+ s3 = s1 +:+ (s2 +:+ s3).
Proof.
  induction s1 as [| c s1 IH]; [reflexivity |].
  rewrite !append_cons, IH. reflexivity.
Qed.

Lemma append_nil_r (s : string) : s +:+ EmptyString = s.
Proof.
  induction s as [| c s IH]; [reflexivity |].
  rewrite append_cons, IH. reflexivity.
Qed.

Section Synthesis.

Variable Advance : FontSymbol -> Z.

(** Past the first turn the loop index plays no role. *)
Lemma synth_loop_index i st (all : list fontSymbolLookup) :
  synth_loop Advance (S i) st all = synth_loop Advance 1 st all.
Proof.
  revert i st. induction all as [| s rest IH]; intros i st; simpl;
    [reflexivity |].
  rewrite (IH (S i)), (IH 1%nat). reflexivity.
Qed.

Lemma synth_loop_app i st (l1 l2 : list fontSymbolLookup) :
  synth_loop Advance i st (l1 ++ l2) =
  synth_loop Advance (i + length l1) (synth_loop Advance i st l1) l2.
Proof.
  revert i st. induction l1 as [| s l1 IH]; intros i st; simpl.
  - by rewrite Nat.add_0_r.
  - rewrite IH. f_equal. lia.
Qed.

(** What the builder already holds is only ever extended. *)
Lemma synth_step_str i st s :
  synth_step Advance i st s =
  let st' := synth_step Advance i
               {| st_str := EmptyString; st_x := st_x st;
                  st_prev := st_prev st |} s in
  {| st_str := st_str st +:+ st_str st';
     st_x := st_x st'; st_prev := st_prev st' |}.
Proof.
  unfold synth_step; simpl.
  destruct ((Z.max (st_prev st) (Advance (l_fs s)) <=? sub (l_x s) (st_x st))
            && negb (Nat.eqb i 0));
    destruct (l_x s <? st_x st); simpl;
    rewrite ?append_assoc, ?append_nil_l; reflexivity.
Qed.

Lemma synth_loop_str i st (all : list fontSymbolLookup) :
  st_str (synth_loop Advance i st all) =
  st_str st +:+
  st_str (synth_loop Advance i
            {| st_str := EmptyString; st_x := st_x st;
               st_prev := st_prev st |} all).
Proof.
  revert i st. induction all as [| s rest IH]; intros i st; simpl.
  - by rewrite append_nil_r.
  - rewrite IH. rewrite (synth_step_str i st s). simpl.
    rewrite append_assoc. f_equal.
    set (st' := synth_step Advance i _ s).
    rewrite (IH (S i) st'). reflexivity.
Qed.

(** After the turn of [prev] the cursor stands at the end of [prev]. *)
Lemma synth_loop_last i st (pre : list fontSymbolLookup) prev :
  st_x (synth_loop Advance i st (pre ++ [prev]))
    = add (l_x prev) (Advance (l_fs prev)) /\
  st_prev (synth_loop Advance i st (pre ++ [prev])) = Advance (l_fs prev).
Proof.
  revert i st. induction pre as [| s pre IH]; intros i st; simpl.
  - by split.
  - apply IH.
Qed.

(** The text of a list is the text up to [prev], then what the turn of
    [s] writes, then the text of what follows [s]. *)
Lemma synthesize_split (pre : list fontSymbolLookup) prev s post :
  exists before,
    synthesize Advance (pre ++ [prev]) = Some before /\
    synthesize Advance (pre ++ prev :: s :: post) =
    Some (before +:+
          (if Z.max (Advance (l_fs prev)) (Advance (l_fs s))
                <=? sub (l_x s) (add (l_x prev) (Advance (l_fs prev)))
           then " " else EmptyString) +:+
          (if l_x s <? add (l_x prev) (Advance (l_fs prev))
           then nl else EmptyString) +:+
          symbol (l_fs s) +:+
          continuation Advance s post).
Proof.
  unfold synthesize.
  assert (Hfirst : (pre ++ prev :: s :: post) !! 0%nat
                   = (pre ++ [prev]) !! 0%nat) by (by destruct pre).
  rewrite Hfirst.
  destruct ((pre ++ [prev]) !! 0%nat) as [first |] eqn:E;
    [| by destruct pre].
  set (init := {| st_str := EmptyString; st_x := l_x first; st_prev := 0 |}).
  eexists. split; [reflexivity |]. f_equal.
  replace (pre ++ prev :: s :: post) with ((pre ++ [prev]) ++ s :: post)
    by (by rewrite <- app_assoc).
  rewrite synth_loop_app, length_app, Nat.add_0_l, Nat.add_1_r.
  rewrite synth_loop_index.
  destruct (synth_loop_last 0 init pre prev) as [Hx Hp].
  set (st1 := synth_loop Advance 0 init (pre ++ [prev])) in *.
  simpl. rewrite synth_loop_index, synth_loop_str.
  unfold synth_step. rewrite Hx, Hp. simpl. rewrite andb_true_r.
  unfold continuation.
  destruct (Z.max (Advance (l_fs prev)) (Advance (l_fs s))
              <=? sub (l_x s) (add (l_x prev) (Advance (l_fs prev))));
    destruct (l_x s <? add (l_x prev) (Advance (l_fs prev))); simpl;
    rewrite ?append_assoc; reflexivity.
Qed.

(** The first symbol is written bare. *)
Lemma synthesize_first s (post : list fontSymbolLookup) :
  synthesize Advance (s :: post) =
  Some (symbol (l_fs s) +:+ continuation Advance s post).
Proof.
  unfold synthesize. simpl. f_equal.
  rewrite synth_loop_str. unfold synth_step. simpl.
  rewrite andb_false_r, Z.ltb_irrefl. reflexivity.
Qed.

(** The text depends on [Advance] through the symbols of the list only. *)
Lemma synth_loop_ext (Advance' : FontSymbol -> Z) i st
    (all : list fontSymbolLookup) :
  (forall c, c ∈ all -> Advance (l_fs c) = Advance' (l_fs c)) ->
  synth_loop Advance i st all = synth_loop Advance' i st all.
Proof.
  revert i st. induction all as [| s rest IH]; intros i st Hext; simpl;
    [reflexivity |].
  rewrite IH by (intros c Hc; apply Hext; by right).
  unfold synth_step. rewrite (Hext s) by left. reflexivity.
Qed.

End Synthesis.

(** ** Suppression only removes candidates *)

Lemma deleteSymbol_subset (all : list fontSymbolLookup) i c :
  c ∈ deleteSymbol all i -> c ∈ all.
Proof.
  unfold deleteSymbol. rewrite <- delete_take_drop.
  intros Hc. apply (elem_of_sublist _ _ _ Hc), sublist_delete.
Qed.

Lemma suppress_from_subset fuel kk (all : list fontSymbolLookup) j c :
  c ∈ suppress_from fuel kk all j -> c ∈ all.
Proof.
  revert all j. induction fuel as [| fuel IH]; intros all j; simpl;
    [trivial |].
  destruct (all !! j) as [jj |]; [| trivial].
  destruct (cross kk jj); intros Hc.
  - apply IH in Hc. by apply deleteSymbol_subset in Hc.
  - by apply IH in Hc.
Qed.

Lemma suppress_loop_subset n k (all : list fontSymbolLookup) c :
  c ∈ suppress_loop n k all -> c ∈ all.
Proof.
  revert k all. induction n as [| n IH]; intros k all; simpl; [trivial |].
  intros Hc. apply IH in Hc.
  destruct (all !! k); [by apply suppress_from_subset in Hc | assumption].
Qed.

Lemma suppress_subset (all : list fontSymbolLookup) c :
  c ∈ suppress all -> c ∈ all.
Proof. apply suppress_loop_subset. Qed.

(** [filterAndArrange] depends on [Advance] through the symbols of its
    input only. *)
Lemma filterAndArrange_ext (Advance Advance' : FontSymbol -> Z) sortSlice
    (all : list fontSymbolLookup) :
  SortContract sortSlice ->
  (forall c, c ∈ all -> Advance (l_fs c) = Advance' (l_fs c)) ->
  filterAndArrange Advance sortSlice all
  = filterAndArrange Advance' sortSlice all.
Proof.
  intros Hsort Hext. unfold filterAndArrange, synthesize.
  set (arranged := sortSlice _ comesAfter (resolveOverlaps sortSlice all)).
  assert (Hin : forall c, c ∈ arranged -> c ∈ all).
  { intros c Hc. unfold arranged in Hc.
    rewrite (proj1 (Hsort _ comesAfter _)) in Hc.
    unfold resolveOverlaps in Hc. apply suppress_subset in Hc.
    by rewrite (proj1 (Hsort _ (biggerFirst all) all)) in Hc. }
  destruct (arranged !! 0%nat); [| reflexivity].
  f_equal. f_equal. apply synth_loop_ext. intros c Hc. apply Hext, Hin, Hc.
Qed.

(** ** The space and newline rules *)

Lemma synthesize_pair Advance (a b : fontSymbolLookup) :
  synthesize Advance [a; b] =
  Some (symbol (l_fs a) +:+
        (if Z.max (Advance (l_fs a)) (Advance (l_fs b))
              <=? sub (l_x b) (add (l_x a) (Advance (l_fs a)))
         then " " else EmptyString) +:+
        (if l_x b <? add (l_x a) (Advance (l_fs a))
         then nl else EmptyString) +:+
        symbol (l_fs b)).
Proof.
  destruct (synthesize_split Advance [] a b []) as (before & Hb & Hs).
  simpl in Hb, Hs. rewrite synthesize_first in Hb.
  injection Hb as <-. rewrite Hs. unfold continuation. simpl.
  rewrite !append_nil_r. reflexivity.
Qed.

Lemma filter_all {A} (f : A -> bool) (l : list A) :
  List.Forall (fun x => f x = true) l -> List.filter f l = l.
Proof.
  induction 1 as [| x l Hx _ IH]; simpl; [reflexivity |].
  by rewrite Hx, IH.
Qed.

Lemma greedy_disjoint_id n (all : list fontSymbolLookup) :
  (length all <= n)%nat ->
  StronglySorted (fun c d => cross c d = false) all ->
  greedy n all = all.
Proof.
  revert all. induction n as [| n IH]; intros all Hn Hs.
  - destruct all; [reflexivity | simpl in Hn; lia].
  - destruct all as [| kk rest]; [reflexivity |]. cbn [greedy].
    apply StronglySorted_inv in Hs as [Hs Hkk].
    rewrite filter_all.
    + rewrite IH; [reflexivity | simpl in Hn; lia | assumption].
    + eapply List.Forall_impl; [| exact Hkk]. intros d Hd. simpl in Hd.
      by rewrite Hd.
Qed.

Lemma apart_perm (l l' : list fontSymbolLookup) :
  l ≡ₚ l' ->
  StronglySorted (fun c d => cross c d = false) l ->
  StronglySorted (fun c d => cross c d = false) l'.
Proof.
  induction 1 as [| x l l' Hp IH | x y l | l l' l'' Hp1 IH1 Hp2 IH2];
    intros Hs.
  - constructor.
  - apply StronglySorted_inv in Hs as [Hs Hx]. constructor; [by apply IH |].
    apply List.Forall_forall. intros d Hd.
    rewrite List.Forall_forall in Hx. apply Hx.
    apply list_elem_of_In. rewrite Hp. by apply list_elem_of_In.
  - apply StronglySorted_inv in Hs as [Hs Hy].
    apply StronglySorted_inv in Hs as [Hs Hx].
    pose proof (Forall_inv Hy) as Hyx. apply Forall_inv_tail in Hy.
    repeat constructor; try assumption. by rewrite cross_sym.
  - by apply IH2, IH1.
Qed.

(** Candidates of which no two cross and which [comesAfter] orders
    strictly and totally are all kept, and written in that order,
    whatever the order of the input and whatever sort is used. *)
Lemma filterAndArrange_apart Advance sortSlice
    (all ordered : list fontSymbolLookup) :
  SortContract sortSlice ->
  all ≡ₚ ordered ->
  StronglySorted (fun c d => cross c d = false) ordered ->
  StrictTotalOn comesAfter ordered ->
  SortedBy comesAfter ordered ->
  filterAndArrange Advance sortSlice all = synthesize Advance ordered.
Proof.
  intros Hsort Hp Hapart Hst Hsorted.
  unfold filterAndArrange, resolveOverlaps.
  destruct (Hsort _ (biggerFirst all) all) as [Hp1 _].
  set (s1 := sortSlice _ (biggerFirst all) all) in *.
  assert (Hp1' : s1 ≡ₚ ordered) by (by rewrite Hp1).
  assert (Hkeep : suppress s1 = s1).
  { rewrite suppress_greedy. apply greedy_disjoint_id; [lia |].
    apply (apart_perm ordered); [by symmetry | assumption]. }
  rewrite Hkeep.
  destruct (Hsort _ comesAfter s1) as [Hp2 Hs2].
  f_equal. apply (SortedBy_unique comesAfter ordered).
  - assumption.
  - by rewrite Hp2.
  - reflexivity.
  - apply Hs2. apply (StrictTotalOn_perm comesAfter ordered);
      [by symmetry | assumption].
  - assumption.
Qed.

(** A crossing pair leaves one label. *)
Lemma filterAndArrange_crossing_pair Advance sortSlice
    (a b : fontSymbolLookup) (all : list fontSymbolLookup) :
  SortContract sortSlice ->
  all ≡ₚ [a; b] -> cross a b = true ->
  filterAndArrange Advance sortSlice all = Some (symbol (l_fs a)) \/
  filterAndArrange Advance sortSlice all = Some (symbol (l_fs b)).
Proof.
  intros Hsort Hp Hx.
  assert (Hone : forall c, resolveOverlaps sortSlice all = [c] ->
                           filterAndArrange Advance sortSlice all
                           = Some (symbol (l_fs c))).
  { intros c Hc. unfold filterAndArrange. rewrite Hc.
    destruct (Hsort _ comesAfter [c]) as [Hp2 _].
    symmetry in Hp2. apply Permutation_length_1_inv in Hp2. rewrite Hp2.
    rewrite synthesize_first. unfold continuation. cbn [synth_loop st_str].
    by rewrite append_nil_r. }
  unfold resolveOverlaps in Hone.
  destruct (Hsort _ (biggerFirst all) all) as [Hp1 _].
  pose proof (Permutation_sym (Permutation_trans Hp1 Hp)) as Hp1'.
  apply Permutation_length_2_inv in Hp1' as [E | E].
  - left. apply Hone. rewrite E. by apply suppress_pair.
  - right. apply Hone. rewrite E. apply suppress_pair. by rewrite cross_sym.
Qed.

(** Two candidates on one line, the left one first. *)
Lemma pair_in_order (a b : fontSymbolLookup) :
  coords_ok a -> coords_ok b ->
  yCross a b = true -> yCross b a = true -> l_x a < l_x b ->
  StrictTotalOn comesAfter [a; b] /\ SortedBy comesAfter [a; b].
Proof.
  intros Ha Hb Yab Yba Hlt.
  pose proof (comesAfter_spec a b Ha Hb) as Hab.
  pose proof (comesAfter_spec b a Hb Ha) as Hba.
  rewrite Yab in Hab. rewrite Yba in Hba.
  assert (Tab : comesAfter a b = true) by (apply Hab; lia).
  assert (Fba : comesAfter b a = false).
  { destruct (comesAfter b a); [| reflexivity].
    apply proj1 in Hba. specialize (Hba eq_refl). lia. }
  pose proof (comesAfter_irrefl a) as Faa.
  pose proof (comesAfter_irrefl b) as Fbb.
  split.
  - repeat split; intros; split_elems; congruence.
  - unfold SortedBy. repeat constructor. assumption.
Qed.

(** C6 (as stated, refuted): with advance 10, candidates at x = 0 and x = 5
    do not give "AB".  Narrow enough not to overlap, the second starts left
    of the cursor (at 10) and a newline is written; as wide as their
    advance, they overlap and one of them is removed. *)
Lemma space_example_at_5 :
  filterAndArrange (fun _ => 10) insertionSort [thinA0; thinB5]
    = Some ("A" +:+ nl +:+ "B") /\
  filterAndArrange width insertionSort [wideA0; wideB5] = Some "A"%string.
Proof. split; vm_compute; reflexivity. Qed.

(** C6 (amended): past the first symbol, a space is written before the
    label of [s] exactly when [s.x - cursorX >= max(previousAdvance,
    advance(s))], where [cursorX] is the previous symbol's x plus its
    advance; the first symbol gets none.  Two candidates of advance 10
    that are on one line (each has its top or its bottom edge within the
    vertical extent of the other), whose boxes do not intersect, the
    first at x = 0, are arranged, whatever their order in the input, as
    "A B" when the second is at x >= 20 (so at 25), as "AB" when it is at
    10 to 19, and as "A", a newline, "B" when it is at 1 to 9 (so at 5).
    Two candidates whose boxes intersect leave one of the two labels
    alone. *)
Theorem space_rule (Advance : FontSymbol -> Z) :
  (forall pre prev s post,
     exists before sp,
       synthesize Advance (pre ++ [prev]) = Some before /\
       synthesize Advance (pre ++ prev :: s :: post) =
         Some (before +:+ sp +:+
               (if l_x s <? add (l_x prev) (Advance (l_fs prev))
                then nl else EmptyString) +:+
               symbol (l_fs s) +:+ continuation Advance s post) /\
       (sp = " "%string \/ sp = EmptyString) /\
       (sp = " "%string <->
        Z.max (Advance (l_fs prev)) (Advance (l_fs s))
          <= sub (l_x s) (add (l_x prev) (Advance (l_fs prev))))) /\
  (forall s post,
     synthesize Advance (s :: post) =
       Some (symbol (l_fs s) +:+ continuation Advance s post)) /\
  (forall sortSlice (a b : fontSymbolLookup) (all : list fontSymbolLookup),
     SortContract sortSlice -> all ≡ₚ [a; b] ->
     coords_ok a -> coords_ok b ->
     yCross a b = true -> yCross b a = true ->
     cross a b = false ->
     Advance (l_fs a) = 10 -> Advance (l_fs b) = 10 -> l_x a = 0 ->
     (20 <= l_x b ->
      filterAndArrange Advance sortSlice all
        = Some (symbol (l_fs a) +:+ " " +:+ symbol (l_fs b))) /\
     (10 <= l_x b < 20 ->
      filterAndArrange Advance sortSlice all
        = Some (symbol (l_fs a) +:+ symbol (l_fs b))) /\
     (0 < l_x b < 10 ->
      filterAndArrange Advance sortSlice all
        = Some (symbol (l_fs a) +:+ nl +:+ symbol (l_fs b)))) /\
  (forall sortSlice (a b : fontSymbolLookup) (all : list fontSymbolLookup),
     SortContract sortSlice -> all ≡ₚ [a; b] ->
     cross a b = true ->
     filterAndArrange Advance sortSlice all = Some (symbol (l_fs a)) \/
     filterAndArrange Advance sortSlice all = Some (symbol (l_fs b))).
Proof.
  split; [| split; [| split]].
  - intros pre prev s post.
    destruct (synthesize_split Advance pre prev s post) as (before & Hb & Hs).
    exists before. eexists. split; [exact Hb |]. split; [exact Hs |].
    destruct (Z.leb_spec (Z.max (Advance (l_fs prev)) (Advance (l_fs s)))
                (sub (l_x s) (add (l_x prev) (Advance (l_fs prev)))));
      split; auto; split; intros; try reflexivity; try lia; discriminate.
  - apply synthesize_first.
  - intros sortSlice a b all Hsort Hp Hca Hcb Yab Yba Hx Ha Hb Hxa.
    assert (Hsyn : 0 < l_x b ->
                   filterAndArrange Advance sortSlice all =
                   Some (symbol (l_fs a) +:+
                         (if 10 <=? l_x b - 10 then " " else EmptyString) +:+
                         (if l_x b <? 10 then nl else EmptyString) +:+
                         symbol (l_fs b))).
    { intros Hpos.
      destruct (pair_in_order a b Hca Hcb Yab Yba ltac:(lia)) as [Hst Hso].
      rewrite (filterAndArrange_apart Advance sortSlice all [a; b]);
        try assumption; [| repeat constructor; assumption].
      rewrite synthesize_pair, Ha, Hb, Hxa.
      change (add 0 10) with 10. change (Z.max 10 10) with 10. unfold sub.
      destruct Hcb as (Hbx & _).
      rewrite wrap_id by (unfold in_int, int_min, int_max; lia).
      reflexivity. }
    repeat split; intros Hxb; rewrite Hsyn by lia.
    + destruct (Z.leb_spec 10 (l_x b - 10)); [| lia].
      destruct (Z.ltb_spec (l_x b) 10); [lia |]. reflexivity.
    + destruct (Z.leb_spec 10 (l_x b - 10)); [lia |].
      destruct (Z.ltb_spec (l_x b) 10); [lia |]. reflexivity.
    + destruct (Z.leb_spec 10 (l_x b - 10)); [lia |].
      destruct (Z.ltb_spec (l_x b) 10); [| lia]. reflexivity.
  - intros sortSlice a b all Hsort Hp Hx.
    by apply filterAndArrange_crossing_pair.
Qed.

Lemma space_rule_witness :
  filterAndArrange width insertionSort
    [newFontSymbolLookup (glyph "B" 10 10 50) 25 0 1; wideA0]
    = Some "A B"%string /\
  filterAndArrange (fun _ => 10) insertionSort [thinB15; thinA0]
    = Some "AB"%string /\
  (filterAndArrange width insertionSort [wideB5; wideA0] = Some "A"%string \/
   filterAndArrange width insertionSort [wideB5; wideA0] = Some "B"%string).
Proof.
  split; [| split].
  - apply (proj1 (proj2 (proj2 (space_rule width))) insertionSort wideA0
             (newFontSymbolLookup (glyph "B" 10 10 50) 25 0 1)).
    + apply insertionSort_contract.
    + apply Permutation_swap.
    + unfold coords_ok. simpl. lia.
    + unfold coords_ok. simpl. lia.
    + reflexivity.
    + reflexivity.
    + reflexivity.
    + reflexivity.
    + reflexivity.
    + reflexivity.
    + simpl. lia.
  - apply (proj1 (proj2 (proj1 (proj2 (proj2 (space_rule (fun _ => 10))))
             insertionSort thinA0 thinB15 [thinB15; thinA0]
             insertionSort_contract (Permutation_swap _ _ _)
             ltac:(unfold coords_ok; simpl; lia)
             ltac:(unfold coords_ok; simpl; lia)
             eq_refl eq_refl eq_refl eq_refl eq_refl eq_refl))).
    simpl. lia.
  - apply (proj2 (proj2 (proj2 (space_rule width))) insertionSort wideA0 wideB5).
    + apply insertionSort_contract.
    + apply Permutation_swap.
    + reflexivity.
Defined.

(** C7 (as stated, refuted): non-overlapping candidates A, B, C at (0,0),
    (10,0), (0,20) are not always arranged as "AB", newline, "C".  Glyphs
    of 10 x 20 with advance 10 give "A", newline, "CB": C touches the
    bottom of the first line and counts as on it.  Glyphs of 5 x 5 that
    advance by their width give "A B", newline, "C". *)
Lemma grid_example_depends_on_size :
  filterAndArrange (fun _ => 10) insertionSort [tallA; tallB; tallC]
    = Some ("A" +:+ nl +:+ "CB") /\
  cross tallA tallB = false /\ cross tallA tallC = false /\
  cross tallB tallC = false /\
  filterAndArrange width insertionSort [smallA; smallB; smallC]
    = Some ("A B" +:+ nl +:+ "C") /\
  cross smallA smallB = false /\ cross smallA smallC = false /\
  cross smallB smallC = false.
Proof. vm_compute. repeat split; reflexivity. Qed.

(** C7 (amended): a newline is written before the label of [s] exactly
    when [s.x < cursorX], where [cursorX] is the previous symbol's x plus
    its advance (the first symbol gets none).  Three candidates A, B, C
    at (0,0), (10,0), (0,20) no two of which intersect, with A and B of
    advance 10 and B less than 20 high, are arranged as "AB", a newline,
    "C", whatever their order in the input. *)
Theorem newline_rule (Advance : FontSymbol -> Z) :
  (forall pre prev s post,
     exists before sp nlp,
       synthesize Advance (pre ++ [prev]) = Some before /\
       synthesize Advance (pre ++ prev :: s :: post) =
         Some (before +:+ sp +:+ nlp +:+
               symbol (l_fs s) +:+ continuation Advance s post) /\
       (sp = " "%string \/ sp = EmptyString) /\
       (nlp = nl \/ nlp = EmptyString) /\
       (nlp = nl <-> l_x s < add (l_x prev) (Advance (l_fs prev)))) /\
  (forall s post,
     synthesize Advance (s :: post) =
       Some (symbol (l_fs s) +:+ continuation Advance s post)) /\
  (forall sortSlice (a b c : fontSymbolLookup) (all : list fontSymbolLookup),
     SortContract sortSlice -> all ≡ₚ [a; b; c] ->
     coords_ok a -> coords_ok b -> coords_ok c ->
     l_x a = 0 -> l_y a = 0 ->
     l_x b = 10 -> l_y b = 0 ->
     l_x c = 0 -> l_y c = 20 ->
     cross a b = false -> cross a c = false -> cross b c = false ->
     Advance (l_fs a) = 10 -> Advance (l_fs b) = 10 ->
     height (l_fs b) < 20 ->
     filterAndArrange Advance sortSlice all
       = Some (symbol (l_fs a) +:+ symbol (l_fs b) +:+ nl +:+
               symbol (l_fs c))).
Proof.
  split; [| split].
  - intros pre prev s post.
    destruct (synthesize_split Advance pre prev s post) as (before & Hb & Hs).
    exists before. eexists. eexists.
    split; [exact Hb |]. split; [exact Hs |].
    split; [destruct (_ <=? _); auto |].
    destruct (Z.ltb_spec (l_x s) (add (l_x prev) (Advance (l_fs prev))));
      split; auto; split; intros; try reflexivity; try lia; discriminate.
  - apply synthesize_first.
  - intros sortSlice a b c all Hsort Hp Hca Hcb Hcc
           Hxa Hya Hxb Hyb Hxc Hyc Xab Xac Xbc Ha Hb Hhb.
    assert (Hbefore : forall p q (Hp' : coords_ok p) (Hq : coords_ok q),
               (yCross p q = true -> l_x p < l_x q \/
                                     (l_x p = l_x q /\ l_y p < l_y q)) ->
               (yCross p q = false -> l_y p < l_y q \/
                                      (l_y p = l_y q /\ l_x p < l_x q)) ->
               comesAfter p q = true).
    { intros p q Hp' Hq H1 H2. apply (comesAfter_spec p q Hp' Hq).
      destruct (yCross p q); auto. }
    assert (Hnot : forall p q (Hp' : coords_ok p) (Hq : coords_ok q),
               (yCross p q = true -> ~ (l_x p < l_x q \/
                                     (l_x p = l_x q /\ l_y p < l_y q))) ->
               (yCross p q = false -> ~ (l_y p < l_y q \/
                                      (l_y p = l_y q /\ l_x p < l_x q))) ->
               comesAfter p q = false).
    { intros p q Hp' Hq H1 H2. destruct (comesAfter p q) eqn:E; [| reflexivity].
      apply (comesAfter_spec p q Hp' Hq) in E.
      destruct (yCross p q); [by apply H1 in E | by apply H2 in E]. }
    pose proof (yCross_spec b c Hcb Hcc) as Ybc.
    pose proof (yCross_spec c b Hcc Hcb) as Ycb.
    pose proof Hca as (_ & _ & Hha & _). pose proof Hcb as (_ & _ & Hhb' & _).
    pose proof Hcc as (_ & _ & Hhc & _).
    assert (Tab : comesAfter a b = true) by (apply Hbefore; try assumption; lia).
    assert (Tac : comesAfter a c = true) by (apply Hbefore; try assumption; lia).
    assert (Tbc : comesAfter b c = true).
    { apply Hbefore; try assumption; [| lia].
      intros Y. apply Ybc in Y. lia. }
    assert (Fba : comesAfter b a = false) by (apply Hnot; try assumption; lia).
    assert (Fca : comesAfter c a = false) by (apply Hnot; try assumption; lia).
    assert (Fcb : comesAfter c b = false).
    { apply Hnot; try assumption; [| lia].
      intros Y. apply Ycb in Y. lia. }
    pose proof (comesAfter_irrefl a) as Faa.
    pose proof (comesAfter_irrefl b) as Fbb.
    pose proof (comesAfter_irrefl c) as Fcc.
    rewrite (filterAndArrange_apart Advance sortSlice all [a; b; c]);
      try assumption.
    + destruct (synthesize_split Advance [a] b c []) as (before & Hbf & Hs).
      simpl in Hbf, Hs. rewrite synthesize_pair in Hbf.
      injection Hbf as <-. rewrite Hs.
      unfold continuation. cbn [synth_loop st_str].
      rewrite Ha, Hb, Hxa, Hxb, Hxc.
      change (add 0 10) with 10. change (add 10 10) with 20.
      change (sub 10 10) with 0. change (sub 0 20) with (-20).
      change (Z.max 10 10) with 10. change (10 <=? 0) with false.
      change (10 <? 10) with false. change (0 <? 20) with true.
      destruct (Z.leb_spec (Z.max 10 (Advance (l_fs c))) (-20)); [lia |].
      rewrite !append_nil_r, !append_nil_l, !append_assoc. reflexivity.
    + repeat constructor; assumption.
    + clear Hbefore Hnot Ybc Ycb.
      repeat split; intros; split_elems; congruence.
    + unfold SortedBy. repeat constructor; assumption.
Qed.

Lemma newline_rule_witness :
  filterAndArrange width insertionSort [gridC; gridB; gridA]
    = Some ("AB" +:+ nl +:+ "C").
Proof.
  apply (proj2 (proj2 (newline_rule width)) insertionSort gridA gridB gridC).
  - apply insertionSort_contract.
  - symmetry. apply (Permutation_rev [gridA; gridB; gridC]).
  - unfold coords_ok. simpl. lia.
  - unfold coords_ok. simpl. lia.
  - unfold coords_ok. simpl. lia.
  - reflexivity.
  - reflexivity.
  - reflexivity.
  - reflexivity.
  - reflexivity.
  - reflexivity.
  - reflexivity.
  - reflexivity.
  - reflexivity.
  - reflexivity.
  - reflexivity.
  - simpl. lia.
Defined.

(** ** [LoadFont] *)

(** C10: whenever [LoadFont] returns an error, the OCR is as it was before
    the call: same font families, same flat symbol list. *)
Theorem LoadFont_error_keeps_state
    (File Image : Type)
    (os_Stat : string -> option error)
    (ioutil_ReadDir : string -> result (list FileInfo))
    (os_Open : string -> result File)
    (image_Decode : File -> result Image)
    (ensureGrayScale : Image -> Image)
    (newImageBinary : Image -> imageBinary)
    (fontPath : string) (o : OCR) (e : error) :
  let after :=
    LoadFont File Image os_Stat ioutil_ReadDir os_Open image_Decode
             ensureGrayScale newImageBinary fontPath o in
  snd after = Some e ->
  fst after = o /\
  fontFamilies (fst after) = fontFamilies o /\
  allSymbols (fst after) = allSymbols o.
Proof.
  intros after Herr.
  assert (Hsame : fst after = o).
  { revert Herr. unfold after, LoadFont.
    destruct (IsNotExist (os_Stat fontPath)); [reflexivity |].
    destruct (loadFont _ _ _ _ _ _ _); [discriminate | reflexivity]. }
  rewrite Hsame. auto.
Qed.

Lemma LoadFont_error_keeps_state_witness :
  snd (sampleLoadFont "fonts/broken" (NewOCR (1 # 2) []))
    = Some (EscapeError "%zz") /\
  fst (sampleLoadFont "fonts/broken" (NewOCR (1 # 2) []))
    = NewOCR (1 # 2) [].
Proof.
  split; [reflexivity |].
  apply (LoadFont_error_keeps_state string imageBinary sampleStat
           sampleReadDir sampleOpen sampleDecode id id
           "fonts/broken" (NewOCR (1 # 2) []) (EscapeError "%zz")).
  reflexivity.
Defined.

(** A successful load registers the family under the base name of the
    directory and appends its symbols to the flat list. *)
Example LoadFont_digits :
  let '(o, err) := sampleLoadFont "fonts/digits" (NewOCR (1 # 2) []) in
  err = None /\
  map symbol (allSymbols o) = ["/"; "0"]%string /\
  map symbol <$> (fontFamilies o !! "digits"%string)
    = Some ["/"; "0"]%string.
Proof. vm_compute. repeat split; reflexivity. Qed.

(** ** Template labels *)

Lemma length_append (s1 s2 : string) :
  String.length (s1 +:+ s2) = (String.length s1 + String.length s2)%nat.
Proof.
  induction s1 as [| c s1 IH]; [reflexivity |].
  rewrite append_cons. simpl. by rewrite IH.
Qed.

Lemma substring_prefix (base s : string) :
  substring 0 (String.length base) (base +:+ s) = base.
Proof.
  induction base as [| c base IH].
  - by destruct s.
  - rewrite append_cons. simpl. by rewrite IH.
Qed.

Lemma substring_skip (base s : string) n :
  substring (String.length base) n (base +:+ s) = substring 0 n s.
Proof.
  induction base as [| c base IH]; [reflexivity |].
  rewrite append_cons. simpl. exact IH.
Qed.

Lemma TrimSuffix_png (base : string) :
  TrimSuffix (base +:+ ".png") ".png" = base.
Proof.
  unfold TrimSuffix, HasSuffix. rewrite length_append.
  change (String.length ".png") with 4%nat.
  replace (String.length base + 4 - 4)%nat with (String.length base) by lia.
  rewrite substring_skip, substring_prefix.
  replace (4 <=? String.length base + 4)%nat with true
    by (symmetry; apply Nat.leb_le; lia).
  reflexivity.
Qed.

Lemma has_dot_png (base : string) : has_dot (base +:+ ".png") = true.
Proof.
  induction base as [| c base IH]; [reflexivity |].
  rewrite append_cons. simpl. rewrite IH. apply orb_true_r.
Qed.

Lemma spec_strip_extension_png (base : string) :
  spec_strip_extension (base +:+ ".png") = base.
Proof.
  induction base as [| c base IH]; [reflexivity |].
  rewrite append_cons. simpl.
  rewrite has_dot_png, andb_false_r, IH. reflexivity.
Qed.

Lemma unhex_small c : (unhex c < 16)%N.
Proof.
  unfold unhex.
  repeat match goal with
    | |- context [(?a <=? ?b)%N] => destruct (N.leb_spec a b)
    end; simpl; lia.
Qed.

Lemma nibbles_byte (a b : N) :
  (a < 16)%N -> (b < 16)%N ->
  N.lor (N.shiftl a 4) b = (16 * a + b)%N.
Proof.
  intros Ha Hb.
  assert (Hall : forallb (fun a => forallb (fun b =>
            N.eqb (N.lor (N.shiftl a 4) b) (16 * a + b))
              (map N.of_nat (seq 0 16))) (map N.of_nat (seq 0 16)) = true)
    by (vm_compute; reflexivity).
  rewrite forallb_forall in Hall.
  assert (Hin : forall n, (n < 16)%N -> In n (map N.of_nat (seq 0 16))).
  { intros n Hn. apply in_map_iff. exists (N.to_nat n).
    split; [apply N2Nat.id |]. apply in_seq. lia. }
  specialize (Hall a (Hin a Ha)). rewrite forallb_forall in Hall.
  apply N.eqb_eq, Hall, Hin, Hb.
Qed.

Lemma plus_not_hex c : byte_is c 43 = true -> ishex c = false.
Proof.
  unfold byte_is, ishex. intros H. apply N.eqb_eq in H. by rewrite H.
Qed.

Lemma plus_as_space_hex c : ishex c = true -> plus_as_space c = c.
Proof.
  intros H. unfold plus_as_space.
  destruct (byte_is c 43) eqn:E; [| reflexivity].
  apply plus_not_hex in E. congruence.
Qed.

Lemma plus_as_space_not_hex c : ishex c = false -> ishex (plus_as_space c) = false.
Proof.
  intros H. unfold plus_as_space. by destruct (byte_is c 43).
Qed.

Lemma plus_as_space_percent c :
  byte_is (plus_as_space c) 37 = byte_is c 37.
Proof.
  unfold plus_as_space. destruct (byte_is c 43) eqn:E; [| reflexivity].
  unfold byte_is in *. apply N.eqb_eq in E. by rewrite E.
Qed.

Lemma unescape_agrees_all (s : string) : unescape_agrees s.
Proof.
  assert (H : forall k s, (String.length s <= k)%nat -> unescape_agrees s).
  2: { apply (H (String.length s)). lia. }
  clear s. induction k as [| k IH]; intros s Hlen.
  { destruct s; [| simpl in Hlen; lia].
    intros n hp. simpl. auto. }
  destruct s as [| c s1]; [intros n hp; simpl; auto |].
  simpl in Hlen. intros n hp. simpl.
  rewrite plus_as_space_percent.
  destruct (byte_is c 37) eqn:Epct.
  - (* an escape *)
    destruct s1 as [| h1 [| h2 rest]]; try reflexivity.
    simpl.
    destruct (ishex h1) eqn:E1; simpl.
    + destruct (ishex h2) eqn:E2; simpl.
      * rewrite (plus_as_space_hex h1 E1), (plus_as_space_hex h2 E2), E1, E2.
        simpl.
        assert (Hrest : unescape_agrees rest)
          by (apply IH; simpl in Hlen; lia).
        specialize (Hrest (S n) hp).
        destruct (unescape_check rest (S n) hp) as [[n' hp'] | e].
        -- destruct Hrest as (Hn & Hhp & Hdec & _).
           split; [lia |]. split; [assumption |]. split; [| lia].
           rewrite Hdec. simpl.
           rewrite nibbles_byte by apply unhex_small. reflexivity.
        -- by rewrite Hrest.
      * rewrite (plus_as_space_hex h1 E1), E1.
        by rewrite (plus_as_space_not_hex h2 E2).
    + by rewrite (plus_as_space_not_hex h1 E1).
  - assert (Hs1 : unescape_agrees s1) by (apply IH; lia).
    destruct (byte_is c 43) eqn:Eplus.
    + (* a plus *)
      specialize (Hs1 n true).
      destruct (unescape_check s1 n true) as [[n' hp'] | e].
      * destruct Hs1 as (Hn & Hhp & Hdec & _).
        split; [assumption |]. split; [auto |]. split.
        -- rewrite Hdec. unfold plus_as_space. by rewrite Eplus.
        -- intros _ Hf. rewrite Hhp in Hf by reflexivity. discriminate.
      * by rewrite Hs1.
    + specialize (Hs1 n hp).
      destruct (unescape_check s1 n hp) as [[n' hp'] | e].
      * destruct Hs1 as (Hn & Hhp & Hdec & Hid).
        split; [assumption |]. split; [assumption |]. split.
        -- rewrite Hdec. unfold plus_as_space. by rewrite Eplus.
        -- intros H0 Hf. by rewrite Hid.
      * by rewrite Hs1.
Qed.

Lemma QueryUnescape_spec (s : string) :
  match spec_percent_decode (plus_to_space s) with
  | Some d => QueryUnescape s = Ok d
  | None => exists e, QueryUnescape s = Err e
  end.
Proof.
  unfold QueryUnescape.
  pose proof (unescape_agrees_all s 0%nat false) as H.
  destruct (unescape_check s 0 false) as [[n' hp'] | e].
  - destruct H as (_ & _ & Hdec & Hid). rewrite Hdec.
    destruct (Nat.eqb_spec n' 0); destruct hp'; simpl; try reflexivity.
    by rewrite Hid.
  - rewrite H. eauto.
Qed.

Lemma plus_to_space_id (s : string) :
  has_plus s = false -> plus_to_space s = s.
Proof.
  induction s as [| c s IH]; [reflexivity |]. simpl.
  intros H. apply orb_false_iff in H as [Hc Hs].
  unfold plus_as_space. rewrite Hc, IH by assumption. reflexivity.
Qed.

(** C8 (as stated, refuted): the label is not always the percent-decoded
    name without its extension.  Only a [.png] suffix is removed, so
    [A.jpg] is labelled "A.jpg"; and a [+] is decoded as a space, so
    [+.png] is labelled " ". *)
Lemma label_rule_fails :
  sampleLoadSymbol "fonts" "A.jpg" = Ok (glyph "A.jpg" 3 4 5) /\
  spec_label "A.jpg" = Some "A"%string /\
  sampleLoadSymbol "fonts" "+.png" = Ok (glyph " " 3 4 5) /\
  spec_label "+.png" = Some "+"%string.
Proof. vm_compute. repeat split; reflexivity. Qed.

(** C8 (amended): for a file named [base.png] that opens and decodes, the
    label is [base], percent-decoded with every [+] read as a space, with
    every U+200B removed after decoding, and the load fails when [base]
    has an ill-formed escape; when [base] has no [+] this is the
    percent-decoded file name with its extension stripped.  The file
    [%2F%E2%80%8B.png] is labelled "/". *)
Theorem png_label_rule :
  (forall (File Image : Type) (os_Open : string -> result File)
          (image_Decode : File -> result Image)
          (ensureGrayScale : Image -> Image)
          (newImageBinary : Image -> imageBinary)
          (path base : string) (imageFile : File) (img : Image),
      os_Open (path +:+ "/" +:+ (base +:+ ".png")) = Ok imageFile ->
      image_Decode imageFile = Ok img ->
      match spec_percent_decode (plus_to_space base) with
      | Some decoded =>
          loadSymbol File Image os_Open image_Decode ensureGrayScale
                     newImageBinary path (base +:+ ".png")
          = Ok (NewFontSymbol Image ensureGrayScale newImageBinary
                  (remove_zwsp decoded) img)
      | None =>
          exists e,
            loadSymbol File Image os_Open image_Decode ensureGrayScale
                       newImageBinary path (base +:+ ".png") = Err e
      end /\
      (has_plus base = false ->
       spec_label (base +:+ ".png")
       = option_map remove_zwsp (spec_percent_decode (plus_to_space base)))) /\
  sampleLoadSymbol "fonts" "%2F%E2%80%8B.png" = Ok (glyph "/" 3 4 5).
Proof.
  split; [| vm_compute; reflexivity].
  intros File Image os_Open image_Decode gray newBin path base imageFile img
         Hopen Hdec.
  split.
  - unfold loadSymbol. rewrite Hopen, Hdec, TrimSuffix_png.
    pose proof (QueryUnescape_spec base) as Hq.
    destruct (spec_percent_decode (plus_to_space base)) as [decoded |].
    + by rewrite Hq.
    + destruct Hq as [e He]. rewrite He. eauto.
  - intros Hplus. unfold spec_label.
    by rewrite spec_strip_extension_png, plus_to_space_id.
Qed.

Lemma png_label_rule_witness :
  sampleLoadSymbol "fonts" "%2F%E2%80%8B.png" = Ok (glyph "/" 3 4 5) /\
  spec_label "%2F%E2%80%8B.png" = Some "/"%string.
Proof.
  destruct (proj1 png_label_rule string imageBinary sampleOpen sampleDecode
              id id "fonts"%string "%2F%E2%80%8B"%string
              ("fonts" +:+ "/" +:+ ("%2F%E2%80%8B" +:+ ".png"))
              {| ib_width := 3; ib_height := 4; ib_size := 5 |}
              eq_refl eq_refl) as [Hload Hspec].
  split; [exact Hload | exact (Hspec eq_refl)].
Defined.

(** * Further properties of the pipeline *)

(** ** Overlap suppression *)

Lemma sorted_by_index {A} (R : A -> A -> Prop) (l : list A) :
  StronglySorted R l <->
  (forall i j x y, (i < j)%nat -> l !! i = Some x -> l !! j = Some y -> R x y).
Proof.
  split.
  - induction 1 as [| a l Hs IH Ha]; intros i j x y Hij Hi Hj.
    + rewrite lookup_nil in Hi. discriminate.
    + destruct j as [| j]; [lia |]. simpl in Hj.
      destruct i as [| i]; simpl in Hi.
      * injection Hi as <-. rewrite List.Forall_forall in Ha.
        apply Ha. apply list_elem_of_In. by eapply list_elem_of_lookup_2.
      * apply (IH i j); [lia | assumption..].
  - induction l as [| a l IH]; intros H; constructor.
    + apply IH. intros i j x y Hij Hi Hj. apply (H (S i) (S j)); [lia | assumption..].
    + apply List.Forall_forall. intros y Hy.
      apply list_elem_of_In, list_elem_of_lookup in Hy as [j Hj].
      apply (H 0%nat (S j)); [lia | reflexivity | assumption].
Qed.

Lemma filter_sublist {A} (f : A -> bool) (l : list A) :
  List.filter f l `sublist_of` l.
Proof.
  induction l as [| x l IH]; simpl; [constructor |].
  destruct (f x); by constructor.
Qed.

Lemma greedy_sublist n (all : list fontSymbolLookup) :
  greedy n all `sublist_of` all.
Proof.
  revert all. induction n as [| n IH]; intros all; [apply sublist_nil_l |].
  destruct all as [| kk rest]; [constructor |]. cbn [greedy].
  apply sublist_skip. etransitivity; [apply IH | apply filter_sublist].
Qed.

Lemma greedy_fuel n m (all : list fontSymbolLookup) :
  (length all <= n)%nat -> (length all <= m)%nat ->
  greedy n all = greedy m all.
Proof.
  revert m all. induction n as [| n IH]; intros m all Hn Hm.
  - destruct all; [by destruct m | simpl in Hn; lia].
  - destruct all as [| kk rest]; [by destruct m |].
    destruct m as [| m]; [simpl in Hm; lia |]. cbn [greedy]. f_equal.
    pose proof (filter_length_le (fun jj => negb (cross kk jj)) rest).
    simpl in Hn, Hm. apply IH; lia.
Qed.

(** X1: the suppression loop, with its deletions in place and its index
    that stays put after a deletion, computes the greedy filter: the
    first candidate is kept and removes every later candidate that
    crosses it, and so on with the candidates that remain. *)
Theorem suppress_is_greedy_filter :
  suppress [] = [] /\
  (forall kk rest,
     suppress (kk :: rest) =
     kk :: suppress (List.filter (fun jj => negb (cross kk jj)) rest)).
Proof.
  split; [reflexivity |].
  intros kk rest. rewrite !suppress_greedy. cbn [length greedy]. f_equal.
  apply greedy_fuel; [apply filter_length_le | lia].
Qed.

(** X2: after suppression no two survivors cross, in either direction. *)
Theorem suppress_survivors_apart (all : list fontSymbolLookup) :
  forall i j c d,
    i <> j ->
    suppress all !! i = Some c -> suppress all !! j = Some d ->
    cross c d = false.
Proof.
  intros i j c d Hij Hi Hj.
  pose proof (greedy_no_cross (length all) all) as Hs.
  rewrite <- suppress_greedy in Hs.
  destruct (Nat.lt_total i j) as [Hlt | [Heq | Hgt]]; [| contradiction |].
  - by apply (proj1 (sorted_by_index _ _) Hs i j).
  - rewrite cross_sym. by apply (proj1 (sorted_by_index _ _) Hs j i).
Qed.

(** X3: suppression only removes: what is left is the input with some
    candidates taken out, the others in their order. *)
Theorem suppress_sublist (all : list fontSymbolLookup) :
  suppress all `sublist_of` all /\
  (length (suppress all) <= length all)%nat.
Proof.
  assert (H : suppress all `sublist_of` all)
    by (rewrite suppress_greedy; apply greedy_sublist).
  split; [exact H | by apply sublist_length].
Qed.

(** X4: candidates of which no two cross are all kept. *)
Theorem suppress_keeps_apart (all : list fontSymbolLookup) :
  (forall i j c d,
     (i < j)%nat -> all !! i = Some c -> all !! j = Some d ->
     cross c d = false) ->
  suppress all = all.
Proof.
  intros H. rewrite suppress_greedy.
  apply greedy_disjoint_id; [lia |]. by apply sorted_by_index.
Qed.

Lemma suppress_keeps_apart_witness :
  suppress [stairA; stairB; stairC] = [stairA; stairB; stairC].
Proof.
  apply (suppress_keeps_apart [stairA; stairB; stairC]).
  intros i j c d Hij Hi Hj.
  destruct i as [| [| [| i]]]; destruct j as [| [| [| j]]];
    try lia; simpl in Hi, Hj; try discriminate;
    injection Hi as <-; injection Hj as <-; reflexivity.
Defined.

(** X5: suppressing twice changes nothing more. *)
Theorem suppress_idempotent (all : list fontSymbolLookup) :
  suppress (suppress all) = suppress all.
Proof.
  rewrite (suppress_greedy (suppress all)).
  apply greedy_disjoint_id; [lia |].
  rewrite suppress_greedy. apply greedy_no_cross.
Qed.

Lemma suppress_survivors_apart_witness : cross rowA rowC = false.
Proof.
  apply (suppress_survivors_apart [rowA; rowB; rowC] 0%nat 1%nat rowA rowC).
  - lia.
  - reflexivity.
  - reflexivity.
Defined.

(** ** Bounding boxes *)

Lemma bbox_small (l : fontSymbolLookup) :
  coords_ok l ->
  bbox l =
  {| Min := {| X := l_x l; Y := l_y l |};
     Max := {| X := l_x l + width (l_fs l); Y := l_y l + height (l_fs l) |} |}.
Proof.
  intros (Hx & Hy & Hh & Hw). unfold bbox, Rect.
  rewrite !add_small by assumption.
  destruct (Z.ltb_spec (l_x l + width (l_fs l)) (l_x l)); [lia |].
  destruct (Z.ltb_spec (l_y l + height (l_fs l)) (l_y l)); [lia |].
  reflexivity.
Qed.

Lemma cross_geometry (l f : fontSymbolLookup) :
  coords_ok l -> coords_ok f ->
  cross l f = true <->
  (l_x l < l_x f + width (l_fs f) /\ l_x f < l_x l + width (l_fs l) /\
   0 < width (l_fs l) /\ 0 < width (l_fs f)) /\
  (l_y l < l_y f + height (l_fs f) /\ l_y f < l_y l + height (l_fs l) /\
   0 < height (l_fs l) /\ 0 < height (l_fs f)).
Proof.
  intros Hl Hf. unfold cross.
  rewrite (bbox_small l Hl), (bbox_small f Hf).
  destruct Hl as (Hlx & Hly & Hlh & Hlw), Hf as (Hfx & Hfy & Hfh & Hfw).
  unfold Intersect, Empty, Rectangle_eqb, ZR. cbn [X Y Min Max].
  repeat match goal with
    | |- context [?a <? ?b] => destruct (Z.ltb_spec a b)
    end;
    repeat match goal with
      | |- context [?a <=? ?b] => destruct (Z.leb_spec a b)
      end;
    cbn [orb negb andb X Y Min Max];
    repeat match goal with
      | |- context [?a =? ?b] => destruct (Z.eqb_spec a b)
      end;
    cbn [orb negb andb]; split; intros Hgoal; try discriminate; try lia;
    try reflexivity.
Qed.

(** X6: the overlap test is symmetric. *)
Theorem cross_symmetric (l f : fontSymbolLookup) : cross l f = cross f l.
Proof.
  unfold cross. rewrite (Intersect_comm (bbox l) (bbox f)). reflexivity.
Qed.

(** X7: for candidates with in-range coordinates, [cross] holds exactly
    when the two boxes [x, x + width) x [y, y + height) are non-empty and
    overlap on both axes. *)
Theorem cross_is_box_overlap (l f : fontSymbolLookup) :
  coords_ok l -> coords_ok f ->
  cross l f = true <->
  (l_x l < l_x f + width (l_fs f) /\ l_x f < l_x l + width (l_fs l) /\
   0 < width (l_fs l) /\ 0 < width (l_fs f)) /\
  (l_y l < l_y f + height (l_fs f) /\ l_y f < l_y l + height (l_fs l) /\
   0 < height (l_fs l) /\ 0 < height (l_fs f)).
Proof. intros Hl Hf. by apply cross_geometry. Qed.

Lemma cross_is_box_overlap_witness :
  cross rowA rowB = true <->
  (l_x rowA < l_x rowB + width (l_fs rowB) /\
   l_x rowB < l_x rowA + width (l_fs rowA) /\
   0 < width (l_fs rowA) /\ 0 < width (l_fs rowB)) /\
  (l_y rowA < l_y rowB + height (l_fs rowB) /\
   l_y rowB < l_y rowA + height (l_fs rowA) /\
   0 < height (l_fs rowA) /\ 0 < height (l_fs rowB)).
Proof.
  apply (cross_is_box_overlap rowA rowB); unfold coords_ok; simpl; lia.
Defined.

(** X8: boxes that only touch do not cross, and a candidate of width or
    height zero crosses nothing, not even itself. *)
Theorem cross_edge_cases (l f : fontSymbolLookup) :
  coords_ok l -> coords_ok f ->
  (l_x f = l_x l + width (l_fs l) \/ l_y f = l_y l + height (l_fs l) ->
   cross l f = false /\ cross f l = false) /\
  (width (l_fs l) = 0 \/ height (l_fs l) = 0 ->
   cross l f = false /\ cross f l = false /\ cross l l = false).
Proof.
  intros Hl Hf.
  pose proof (cross_geometry l f Hl Hf) as Hlf.
  pose proof (cross_geometry f l Hf Hl) as Hfl.
  pose proof (cross_geometry l l Hl Hl) as Hll.
  destruct (cross l f), (cross f l), (cross l l);
    repeat match goal with
      | H : true = true <-> _ |- _ => apply proj1 in H; specialize (H eq_refl)
      | H : false = true <-> _ |- _ => clear H
      end;
    split; intros Hcase; repeat split; try reflexivity; exfalso; lia.
Qed.

Lemma cross_edge_cases_witness :
  cross gridA gridB = false /\ cross gridB gridA = false.
Proof.
  apply (proj1 (cross_edge_cases gridA gridB
                  ltac:(unfold coords_ok; simpl; lia)
                  ltac:(unfold coords_ok; simpl; lia))).
  left. reflexivity.
Defined.

(** ** The priority comparator as an order *)

Lemma biggerThan_asym (a b : fontSymbolLookup) m2 :
  0 <= l_size a <= int_max -> 0 <= l_size b <= int_max ->
  biggerThan a b m2 = true -> biggerThan b a m2 = false.
Proof.
  intros Ha Hb Hab. destruct (biggerThan b a m2) eqn:Hba; [| reflexivity].
  apply (biggerThan_spec a b m2 Ha Hb) in Hab.
  apply (biggerThan_spec b a m2 Hb Ha) in Hba.
  exfalso.
  destruct Hab as [[H1 H2] | [H1 [H2 | [H2 H3]]]],
           Hba as [[K1 K2] | [K1 [K2 | [K2 K3]]]]; try lia.
  - apply (Qlt_irrefl (l_g a)). by apply (Qlt_trans _ (l_g b)).
  - rewrite K2 in H2. by apply Qlt_irrefl in H2.
  - rewrite H2 in K2. by apply Qlt_irrefl in K2.
Qed.

(** X9: on candidates with well-formed sizes the priority comparator is
    irreflexive and asymmetric, but it is not transitive: sizes 50, 30 and
    10 with qualities 0.5, 0.7 and 0.9 are ranked in a cycle. *)
Theorem biggerThan_strict_not_transitive :
  (forall a b m2,
     0 <= l_size a <= int_max -> 0 <= l_size b <= int_max ->
     biggerThan a a m2 = false /\
     (biggerThan a b m2 = true -> biggerThan b a m2 = false)) /\
  (let less := biggerFirst [cycA; cycB; cycC] in
   less cycA cycC = true /\ less cycC cycB = true /\
   less cycB cycA = true /\ less cycA cycB = false).
Proof.
  split.
  - intros a b m2 Ha Hb. split; [by apply biggerThan_irrefl |].
    by apply biggerThan_asym.
  - vm_compute. repeat split; reflexivity.
Qed.

Lemma biggerThan_strict_not_transitive_witness :
  biggerThan bigLow bigLow 30 = false /\
  (biggerThan bigLow smallHigh 30 = true ->
   biggerThan smallHigh bigLow 30 = false).
Proof.
  apply (proj1 biggerThan_strict_not_transitive bigLow smallHigh 30);
    vm_compute; split; congruence.
Defined.

(** X10: the priority comparator of a list does not depend on the order of
    the list. *)
Theorem biggerFirst_ignores_order (l1 l2 : list fontSymbolLookup) a b :
  l1 ≡ₚ l2 -> biggerFirst l1 a b = biggerFirst l2 a b.
Proof. intros Hp. by rewrite (biggerFirst_perm l1 l2 Hp). Qed.

Lemma biggerFirst_ignores_order_witness :
  biggerFirst [cycA; cycB; cycC] cycA cycB
  = biggerFirst [cycC; cycA; cycB] cycA cycB.
Proof.
  apply (biggerFirst_ignores_order [cycA; cycB; cycC] [cycC; cycA; cycB]).
  change [cycC; cycA; cycB] with ([cycC] ++ [cycA; cycB]).
  change [cycA; cycB; cycC] with ([cycA; cycB] ++ [cycC]).
  apply Permutation_app_comm.
Defined.

(** ** The resolver on a pair *)

Lemma pair_resolved
    (sortSlice : forall A : Type, (A -> A -> bool) -> list A -> list A)
    (a b : fontSymbolLookup) (all : list fontSymbolLookup) :
  SortContract sortSlice ->
  all ≡ₚ [a; b] ->
  0 <= l_size a <= int_max -> 0 <= l_size b <= int_max ->
  cross a b = true ->
  biggerFirst all a b = true ->
  resolveOverlaps sortSlice all = [a].
Proof.
  intros Hsort Hp Hra Hrb Hx Hab.
  pose proof (biggerThan_asym a b (maxSize2 all) Hra Hrb Hab) as Hba.
  assert (Hst : StrictTotalOn (biggerFirst all) all).
  { apply (StrictTotalOn_perm _ [a; b]); [by symmetry |].
    unfold biggerFirst in *.
    pose proof (biggerThan_irrefl a (maxSize2 all) Hra) as Haa.
    pose proof (biggerThan_irrefl b (maxSize2 all) Hrb) as Hbb.
    repeat split; intros; split_elems; congruence. }
  unfold resolveOverlaps.
  destruct (Hsort _ (biggerFirst all) all) as [Hps Hs].
  specialize (Hs Hst).
  pose proof (Permutation_sym (Permutation_trans Hps Hp)) as Hps'.
  apply Permutation_length_2_inv in Hps' as [E | E]; rewrite E in *.
  - by apply suppress_pair.
  - apply StronglySorted_inv in Hs as [_ Hs].
    apply Forall_inv in Hs. unfold biggerFirst in *. congruence.
Qed.

(** X11: when the candidate list is two candidates that cross and whose
    sizes differ by at least [halfMax], the resolver keeps the larger one
    and removes the other, whatever their qualities and their order. *)
Theorem size_dominance
    (sortSlice : forall A : Type, (A -> A -> bool) -> list A -> list A)
    (a b : fontSymbolLookup) (all : list fontSymbolLookup) :
  SortContract sortSlice ->
  all ≡ₚ [a; b] ->
  size_ok a -> size_ok b ->
  cross a b = true ->
  Z.max (l_size a) (l_size b) / 2 <= Z.abs (l_size a - l_size b) ->
  l_size b < l_size a ->
  resolveOverlaps sortSlice all = [a].
Proof.
  intros Hsort Hp [Hra Hia] [Hrb Hib] Hx Hfar Hlt.
  apply (pair_resolved sortSlice a b all); try assumption.
  assert (Hm2 : maxSize2 all = Z.max (l_size a) (l_size b) / 2).
  { unfold maxSize2, maxSize. rewrite (maxSize_fold_perm _ _ Hp 0). simpl.
    rewrite <- Hia, <- Hib. rewrite Z.quot_div_nonneg by lia. f_equal. lia. }
  unfold biggerFirst. apply biggerThan_spec; [assumption.. |].
  left. rewrite Hm2. by split.
Qed.

Lemma size_dominance_witness :
  resolveOverlaps insertionSort [smallHigh; bigLow] = [bigLow].
Proof.
  apply (size_dominance insertionSort bigLow smallHigh [smallHigh; bigLow]).
  - apply insertionSort_contract.
  - apply Permutation_swap.
  - split; [vm_compute; split; congruence | reflexivity].
  - split; [vm_compute; split; congruence | reflexivity].
  - reflexivity.
  - vm_compute. congruence.
  - vm_compute. reflexivity.
Defined.

(** ** Reading order on one line *)

(** X12: among candidates that are on the same line in the sense of
    [yCross], [comesAfter] is the strict order by x, then y: it is
    transitive, and of two such candidates at different positions one
    comes before the other. *)
Theorem comesAfter_on_one_line (a b c : fontSymbolLookup) :
  coords_ok a -> coords_ok b -> coords_ok c ->
  (yCross a b = true -> yCross b c = true -> yCross a c = true ->
   comesAfter a b = true -> comesAfter b c = true -> comesAfter a c = true) /\
  (yCross a b = true -> yCross b a = true ->
   comesAfter a b = true \/ comesAfter b a = true \/
   (l_x a = l_x b /\ l_y a = l_y b)).
Proof.
  intros Ha Hb Hc.
  pose proof (comesAfter_spec a b Ha Hb) as Hab.
  pose proof (comesAfter_spec b c Hb Hc) as Hbc.
  pose proof (comesAfter_spec a c Ha Hc) as Hac.
  pose proof (comesAfter_spec b a Hb Ha) as Hba.
  split.
  - intros Y1 Y2 Y3 L1 L2. rewrite Y1 in Hab. rewrite Y2 in Hbc.
    rewrite Y3 in Hac. apply Hab in L1. apply Hbc in L2. apply Hac. lia.
  - intros Y1 Y2. rewrite Y1 in Hab. rewrite Y2 in Hba.
    destruct (comesAfter a b); [by left |].
    destruct (comesAfter b a); [right; by left |].
    right. right.
    assert (N1 : ~ (l_x a < l_x b \/ l_x a = l_x b /\ l_y a < l_y b))
      by (intros K; apply Hab in K; discriminate).
    assert (N2 : ~ (l_x b < l_x a \/ l_x b = l_x a /\ l_y b < l_y a))
      by (intros K; apply Hba in K; discriminate).
    lia.
Qed.

Lemma comesAfter_on_one_line_witness :
  comesAfter thinA0 thinB25 = true.
Proof.
  assert (Hok : forall c, c ∈ [thinA0; thinB5; thinB25] -> coords_ok c).
  { intros c Hc. split_elems; unfold coords_ok; simpl; lia. }
  apply (proj1 (comesAfter_on_one_line thinA0 thinB5 thinB25
                  (Hok _ ltac:(left))
                  (Hok _ ltac:(right; left))
                  (Hok _ ltac:(right; right; left))));
    reflexivity.
Defined.

(** ** The whole arrangement stage *)

(** X13: a single candidate is arranged as its label alone. *)
Theorem filterAndArrange_singleton
    (Advance : FontSymbol -> Z)
    (sortSlice : forall A : Type, (A -> A -> bool) -> list A -> list A)
    (c : fontSymbolLookup) :
  SortContract sortSlice ->
  filterAndArrange Advance sortSlice [c] = Some (symbol (l_fs c)).
Proof.
  intros Hsort. unfold filterAndArrange, resolveOverlaps.
  destruct (Hsort _ (biggerFirst [c]) [c]) as [Hp1 _].
  symmetry in Hp1. apply Permutation_length_1_inv in Hp1. rewrite Hp1.
  change (suppress [c]) with [c].
  destruct (Hsort _ comesAfter [c]) as [Hp2 _].
  symmetry in Hp2. apply Permutation_length_1_inv in Hp2. rewrite Hp2.
  rewrite synthesize_first. unfold continuation. cbn [synth_loop st_str].
  by rewrite append_nil_r.
Qed.

Lemma filterAndArrange_singleton_witness :
  filterAndArrange width insertionSort [rowA] = Some (symbol (l_fs rowA)).
Proof.
  apply (filterAndArrange_singleton width insertionSort rowA).
  apply insertionSort_contract.
Defined.

(** X14: with positions and non-negative advances that do not overflow,
    what is written between two consecutive labels is nothing, one space
    or one newline: never a space and a newline together. *)
Theorem separator_is_single (Advance : FontSymbol -> Z)
    (pre : list fontSymbolLookup) (prev s : fontSymbolLookup)
    (post : list fontSymbolLookup) :
  small_step Advance prev -> small_step Advance s ->
  exists before sep,
    synthesize Advance (pre ++ [prev]) = Some before /\
    synthesize Advance (pre ++ prev :: s :: post) =
      Some (before +:+ sep +:+ symbol (l_fs s) +:+ continuation Advance s post) /\
    (sep = EmptyString \/ sep = " "%string \/ sep = nl).
Proof.
  intros [Hpx Hpa] [Hsx Hsa].
  destruct (synthesize_split Advance pre prev s post) as (before & Hb & Hs).
  exists before.
  assert (Hadd : add (l_x prev) (Advance (l_fs prev))
                 = l_x prev + Advance (l_fs prev)).
  { unfold add. apply wrap_id. unfold in_int, int_min, int_max. lia. }
  assert (Hsub : sub (l_x s) (l_x prev + Advance (l_fs prev))
                 = l_x s - (l_x prev + Advance (l_fs prev))).
  { unfold sub. apply wrap_id. unfold in_int, int_min, int_max. lia. }
  rewrite Hadd, Hsub in Hs.
  destruct (Z.leb_spec (Z.max (Advance (l_fs prev)) (Advance (l_fs s)))
              (l_x s - (l_x prev + Advance (l_fs prev)))) as [Hsp | Hsp];
    destruct (Z.ltb_spec (l_x s) (l_x prev + Advance (l_fs prev)))
      as [Hnl | Hnl]; try lia.
  - exists " "%string. split; [assumption |]. split; [| auto]. exact Hs.
  - exists nl. split; [assumption |]. split; [| auto]. exact Hs.
  - exists EmptyString. split; [assumption |]. split; [| auto]. exact Hs.
Qed.

Lemma separator_is_single_witness :
  exists before sep,
    synthesize width ([] ++ [gridA]) = Some before /\
    synthesize width ([] ++ gridA :: gridB :: [gridC]) =
      Some (before +:+ sep +:+ symbol (l_fs gridB)
            +:+ continuation width gridB [gridC]) /\
    (sep = EmptyString \/ sep = " "%string \/ sep = nl).
Proof.
  apply (separator_is_single width [] gridA gridB [gridC]);
    unfold small_step; simpl; lia.
Defined.

(** X15: with a sort that meets its contract [recognize] never panics: it
    returns the scanner's error with an empty text, the empty text for an
    empty scan, and otherwise the text of [filterAndArrange]. *)
Theorem recognize_total
    (Advance : FontSymbol -> Z)
    (sortSlice : forall A : Type, (A -> A -> bool) -> list A -> list A)
    (findAllInParallel :
       Z -> list FontSymbol -> imageBinary -> Q -> Rectangle ->
       list fontSymbolLookup * option error)
    (o : OCR) (bi : imageBinary) (rect : Rectangle) :
  SortContract sortSlice ->
  let scan :=
    findAllInParallel (numThreads o) (allSymbols o) bi (threshold o) rect in
  exists text,
    recognize Advance sortSlice findAllInParallel o bi rect
      = Some (text, snd scan) /\
    (snd scan <> None \/ fst scan = [] -> text = EmptyString) /\
    (snd scan = None -> fst scan <> [] ->
     filterAndArrange Advance sortSlice (fst scan) = Some text).
Proof.
  intros Hsort scan. unfold recognize. fold scan.
  destruct scan as [found [e |]]; cbn [fst snd].
  - exists EmptyString. split; [reflexivity |]. split; [auto |]. discriminate.
  - destruct found as [| c found]; cbn [length Nat.eqb].
    + exists EmptyString. split; [reflexivity |]. split; [auto |].
      intros _ H. contradiction.
    + destruct (filterAndArrange_total Advance sortSlice (c :: found) Hsort)
        as [text Ht]; [discriminate |].
      exists text. rewrite Ht. split; [reflexivity |]. split; [| auto].
      intros [H | H]; [contradiction | discriminate].
Qed.

Lemma recognize_total_witness :
  exists text,
    recognize width insertionSort scanSplit
      (AddSymbols [glyph "A" 10 10 50; glyph "B" 10 10 50] (NewOCR 0 [4]))
      (Build_imageBinary 40 10 0) ZR
    = Some (text, None).
Proof.
  destruct (recognize_total width insertionSort scanSplit
              (AddSymbols [glyph "A" 10 10 50; glyph "B" 10 10 50]
                 (NewOCR 0 [4]))
              (Build_imageBinary 40 10 0) ZR insertionSort_contract)
    as (text & Ht & _).
  exists text. exact Ht.
Defined.

(** X16: the resolver returns candidates of its input only, at least one
    when the input is not empty; and on a list that the priority
    comparator orders strictly and totally, a candidate that no other
    outranks is kept. *)
Theorem resolveOverlaps_keeps_top
    (sortSlice : forall A : Type, (A -> A -> bool) -> list A -> list A)
    (all : list fontSymbolLookup) :
  SortContract sortSlice ->
  (forall c, c ∈ resolveOverlaps sortSlice all -> c ∈ all) /\
  (length (resolveOverlaps sortSlice all) <= length all)%nat /\
  (all <> [] -> resolveOverlaps sortSlice all <> []) /\
  (forall top,
     StrictTotalOn (biggerFirst all) all -> top ∈ all ->
     (forall c, c ∈ all -> biggerFirst all c top = false) ->
     resolveOverlaps sortSlice all !! 0%nat = Some top).
Proof.
  intros Hsort. unfold resolveOverlaps.
  destruct (Hsort _ (biggerFirst all) all) as [Hp Hs].
  set (s := sortSlice _ (biggerFirst all) all) in *.
  split; [| split; [| split]].
  - intros c Hc. apply suppress_subset in Hc. by rewrite <- Hp.
  - rewrite <- (Permutation_length Hp). rewrite suppress_greedy.
    apply sublist_length, greedy_sublist.
  - intros Hne Hemp.
    destruct (perm_first_some _ _ Hp Hne) as [a Ha].
    rewrite <- suppress_first, Hemp in Ha. discriminate.
  - intros top Hst Htop Hmax. specialize (Hs Hst).
    rewrite suppress_first.
    destruct s as [| x s'] eqn:Es.
    + apply Permutation_nil in Hp. subst all. inversion Htop.
    + simpl. f_equal.
      assert (Hx : x ∈ all) by (rewrite <- Hp; left).
      rewrite <- Hp in Htop. apply elem_of_cons in Htop as [-> | Htop];
        [reflexivity |].
      apply StronglySorted_inv in Hs as [_ Hs].
      rewrite List.Forall_forall in Hs.
      destruct Hst as (_ & _ & Htot).
      apply Htot; [assumption | by rewrite <- Hp; right | by apply Hmax |].
      apply Hs. by apply list_elem_of_In.
Qed.

Lemma resolveOverlaps_keeps_top_witness :
  resolveOverlaps insertionSort [chainHi; chainLo; chainTop] !! 0%nat
  = Some chainTop.
Proof.
  apply (proj2 (proj2 (proj2 (resolveOverlaps_keeps_top insertionSort
           [chainHi; chainLo; chainTop] insertionSort_contract)))).
  - strict_total_by_cases.
  - right. right. left.
  - intros c Hc. split_elems; reflexivity.
Defined.

(** ** The template pool *)

Lemma families_in_pool_add name syms o :
  families_in_pool o -> families_in_pool (AddFontFamily name syms o).
Proof.
  intros Hinv name' family fs Hfam Hfs.
  unfold AddFontFamily, AddSymbols in *. cbn [fontFamilies allSymbols] in *.
  apply elem_of_app.
  destruct (decide (name = name')) as [<- | Hne].
  - rewrite lookup_insert_eq in Hfam. injection Hfam as <-.
    apply elem_of_app in Hfs as [Hfs | Hfs]; [left | by right].
    destruct (fontFamilies o !! name) as [old |] eqn:E; simpl in Hfs.
    + by apply (Hinv name old).
    + inversion Hfs.
  - rewrite lookup_insert_ne in Hfam by assumption.
    left. by apply (Hinv name' family).
Qed.

Lemma AddFontFamily_lookup_parts name syms o :
  fontFamilies (AddFontFamily name syms o) !! name
    = Some (default [] (fontFamilies o !! name) ++ syms) /\
  (forall other, other <> name ->
     fontFamilies (AddFontFamily name syms o) !! other
     = fontFamilies o !! other) /\
  allSymbols (AddFontFamily name syms o) = allSymbols o ++ syms.
Proof.
  unfold AddFontFamily, AddSymbols. cbn [fontFamilies allSymbols].
  split; [apply lookup_insert_eq |]. split; [| reflexivity].
  intros other Hne. by apply lookup_insert_ne.
Qed.

(** X17: every symbol registered in a family is also in the flat list
    that is searched: this holds for a new OCR and is kept by
    [AddSymbols], [AddFontFamily] and [LoadFont]. *)
Theorem families_in_pool_kept :
  (forall threshold numThreads, families_in_pool (NewOCR threshold numThreads)) /\
  (forall syms o, families_in_pool o -> families_in_pool (AddSymbols syms o)) /\
  (forall name syms o,
     families_in_pool o -> families_in_pool (AddFontFamily name syms o)) /\
  (forall (File Image : Type) os_Stat ioutil_ReadDir os_Open image_Decode
          ensureGrayScale newImageBinary fontPath o,
     families_in_pool o ->
     families_in_pool
       (fst (LoadFont File Image os_Stat ioutil_ReadDir os_Open image_Decode
                      ensureGrayScale newImageBinary fontPath o))).
Proof.
  split; [| split; [| split]].
  - intros t n name family fs Hfam. unfold NewOCR in Hfam.
    cbn [fontFamilies] in Hfam. rewrite lookup_empty in Hfam. discriminate.
  - intros syms o Hinv name family fs Hfam Hfs.
    unfold AddSymbols in *. cbn [fontFamilies allSymbols] in *.
    apply elem_of_app. left. by apply (Hinv name family).
  - intros name syms o. apply families_in_pool_add.
  - intros File Image os_Stat ReadDir os_Open Decode gray newBin path o Hinv.
    unfold LoadFont. destruct (IsNotExist (os_Stat path)); [assumption |].
    destruct (loadFont _ _ _ _ _ _ _); [| assumption].
    by apply families_in_pool_add.
Qed.

Lemma families_in_pool_kept_witness :
  families_in_pool
    (AddFontFamily "digits" [glyph "0" 3 4 5] (NewOCR (1 # 2) [])).
Proof.
  apply (proj1 (proj2 (proj2 families_in_pool_kept))).
  apply (proj1 families_in_pool_kept).
Defined.

(** X18: two additions to one family are one addition of both symbol
    lists: a family that exists is extended, without any check for
    duplicates. *)
Theorem AddFontFamily_twice name syms1 syms2 o :
  AddFontFamily name syms2 (AddFontFamily name syms1 o)
  = AddFontFamily name (syms1 ++ syms2) o.
Proof.
  unfold AddFontFamily, AddSymbols. cbn [fontFamilies allSymbols threshold numThreads].
  rewrite lookup_insert_eq, insert_insert_eq. cbn [default].
  by rewrite !app_assoc.
Qed.

(** X19: after [AddFontFamily name syms] the family [name] is what it was
    (nothing, if it was new) followed by [syms], every other family is
    untouched, the flat list has [syms] appended, and the threshold and the
    thread count are unchanged. *)
Theorem AddFontFamily_lookup name syms o :
  let o' := AddFontFamily name syms o in
  fontFamilies o' !! name
    = Some (default [] (fontFamilies o !! name) ++ syms) /\
  (forall other, other <> name ->
     fontFamilies o' !! other = fontFamilies o !! other) /\
  allSymbols o' = allSymbols o ++ syms /\
  threshold o' = threshold o /\ numThreads o' = numThreads o.
Proof.
  unfold AddFontFamily, AddSymbols. cbn [fontFamilies allSymbols threshold numThreads].
  split; [apply lookup_insert_eq |]. split; [| auto].
  intros other Hne. by apply lookup_insert_ne.
Qed.

(** ** The font loader *)

Section FontFacts.

Variables File Image : Type.
Variable os_Stat : string -> option error.
Variable ioutil_ReadDir : string -> result (list FileInfo).
Variable os_Open : string -> result File.
Variable image_Decode : File -> result Image.
Variable ensureGrayScale : Image -> Image.
Variable newImageBinary : Image -> imageBinary.

Lemma loadFont_loop_ok (path : string) (files : list FileInfo)
    (fonts r : list FontSymbol) :
  loadFont_loop File Image os_Open image_Decode ensureGrayScale
                newImageBinary path files fonts = Ok r <->
  exists new,
    r = fonts ++ new /\
    Forall2 (fun f fs =>
               loadSymbol File Image os_Open image_Decode ensureGrayScale
                          newImageBinary path (Name f) = Ok fs)
            (List.filter visible files) new.
Proof.
  revert fonts. induction files as [| f files IH]; intros fonts; simpl.
  - split.
    + intros H. injection H as <-. exists []. by rewrite app_nil_r.
    + intros (new & -> & H). inversion H. by rewrite app_nil_r.
  - unfold visible at 1.
    destruct (IsDir f || HasPrefix (Name f) "."); cbn [negb]; [apply IH |].
    destruct (loadSymbol _ _ _ _ _ _ path (Name f)) as [fs | e] eqn:E.
    + rewrite IH. split.
      * intros (new & -> & H). exists (fs :: new).
        split; [by rewrite <- app_assoc | by constructor].
      * intros (new & -> & H). inversion H as [| ? fs' ? new' Hfs Hrest]; subst.
        rewrite E in Hfs. injection Hfs as <-.
        exists new'. split; [by rewrite <- app_assoc | assumption].
    + split; [discriminate |].
      intros (new & _ & H). inversion H as [| ? fs' ? new' Hfs Hrest]; subst.
      rewrite E in Hfs. discriminate.
Qed.

Lemma loadFont_loop_err (path : string) (files : list FileInfo)
    (fonts : list FontSymbol) (e : error) :
  loadFont_loop File Image os_Open image_Decode ensureGrayScale
                newImageBinary path files fonts = Err e <->
  exists before f after,
    List.filter visible files = before ++ f :: after /\
    List.Forall (fun f' =>
              exists fs,
                loadSymbol File Image os_Open image_Decode ensureGrayScale
                           newImageBinary path (Name f') = Ok fs) before /\
    loadSymbol File Image os_Open image_Decode ensureGrayScale
               newImageBinary path (Name f) = Err e.
Proof.
  revert fonts. induction files as [| f files IH]; intros fonts; simpl.
  - split; [discriminate |]. intros (before & f & after & H & _).
    by destruct before.
  - unfold visible at 1.
    destruct (IsDir f || HasPrefix (Name f) "."); cbn [negb]; [apply IH |].
    destruct (loadSymbol _ _ _ _ _ _ path (Name f)) as [fs | e'] eqn:E.
    + rewrite IH. split.
      * intros (before & f' & after & Hsplit & Hok & Herr).
        exists (f :: before), f', after. rewrite Hsplit.
        split; [reflexivity |]. split; [| assumption].
        constructor; [by exists fs | assumption].
      * intros (before & f' & after & Hsplit & Hok & Herr).
        destruct before as [| f0 before]; simpl in Hsplit.
        -- injection Hsplit as <- _. rewrite E in Herr. discriminate.
        -- injection Hsplit as <- Hsplit.
           exists before, f', after. split; [assumption |].
           split; [by apply Forall_inv_tail in Hok | assumption].
    + split.
      * intros H. injection H as <-. exists [], f, (List.filter visible files).
        split; [reflexivity |]. split; [constructor | assumption].
      * intros (before & f' & after & Hsplit & Hok & Herr).
        destruct before as [| f0 before]; simpl in Hsplit.
        -- injection Hsplit as <- _. congruence.
        -- injection Hsplit as <- _. apply Forall_inv in Hok as [fs Hfs].
           rewrite E in Hfs. discriminate.
Qed.

(** X20: [loadFont] succeeds exactly when the directory can be read and
    every entry that is neither a directory nor dot-named loads; it then
    returns one symbol per such entry, in the order of the directory. *)
Theorem loadFont_succeeds_iff (path : string) (fonts : list FontSymbol) :
  loadFont File Image ioutil_ReadDir os_Open image_Decode ensureGrayScale
           newImageBinary path = Ok fonts <->
  exists files,
    ioutil_ReadDir path = Ok files /\
    Forall2 (fun f fs =>
               loadSymbol File Image os_Open image_Decode ensureGrayScale
                          newImageBinary path (Name f) = Ok fs)
            (List.filter visible files) fonts.
Proof.
  unfold loadFont. destruct (ioutil_ReadDir path) as [files | e'].
  - rewrite loadFont_loop_ok. split.
    + intros (new & -> & H). by exists files.
    + intros (files' & Hf & H). injection Hf as <-. by exists fonts.
  - split; [discriminate |]. intros (files & Hf & _). discriminate.
Qed.

(** X21: [loadFont] fails exactly with the error of [ReadDir], or with the
    error of the first loaded entry that does not load; entries after it
    are not looked at, and the symbols read before it are dropped. *)
Theorem loadFont_fails_iff (path : string) (e : error) :
  loadFont File Image ioutil_ReadDir os_Open image_Decode ensureGrayScale
           newImageBinary path = Err e <->
  ioutil_ReadDir path = Err e \/
  exists files before f after,
    ioutil_ReadDir path = Ok files /\
    List.filter visible files = before ++ f :: after /\
    List.Forall (fun f' =>
              exists fs,
                loadSymbol File Image os_Open image_Decode ensureGrayScale
                           newImageBinary path (Name f') = Ok fs) before /\
    loadSymbol File Image os_Open image_Decode ensureGrayScale
               newImageBinary path (Name f) = Err e.
Proof.
  unfold loadFont. destruct (ioutil_ReadDir path) as [files | e'].
  - rewrite loadFont_loop_err. split.
    + intros (before & f & after & H). right. by exists files, before, f, after.
    + intros [H | (files' & before & f & after & Hf & H)]; [discriminate |].
      injection Hf as <-. by exists before, f, after.
  - split.
    + intros H. left. congruence.
    + intros [H | (files & before & f & after & Hf & _)];
        [congruence | discriminate].
Qed.

Lemma loadSymbol_dims (path name : string) (fs : FontSymbol) :
  loadSymbol File Image os_Open image_Decode ensureGrayScale
             newImageBinary path name = Ok fs ->
  width fs = ib_width (image fs) /\ height fs = ib_height (image fs).
Proof.
  unfold loadSymbol.
  destruct (os_Open _); [| discriminate].
  destruct (image_Decode _); [| discriminate].
  destruct (QueryUnescape _); [| discriminate].
  intros H. injection H as <-. by split.
Qed.

(** X22: every symbol that [loadFont] returns has the width and the height
    of its binary image. *)
Theorem loadFont_dims (path : string) (fonts : list FontSymbol) :
  loadFont File Image ioutil_ReadDir os_Open image_Decode ensureGrayScale
           newImageBinary path = Ok fonts ->
  List.Forall (fun fs => width fs = ib_width (image fs) /\
                    height fs = ib_height (image fs)) fonts.
Proof.
  unfold loadFont. destruct (ioutil_ReadDir path) as [files |]; [| discriminate].
  intros H. apply loadFont_loop_ok in H as (new & -> & H). simpl.
  induction H as [| f fs files' new Hfs _ IH]; constructor; [| exact IH].
  by apply (loadSymbol_dims path (Name f)).
Qed.

(** X23: when [LoadFont] returns no error, the directory was read, its
    loaded entries gave the symbols [symbols], and these were appended to
    the flat list and to the family named after the base name of the
    path, every other family staying as it was. *)
Theorem LoadFont_success_extends (fontPath : string) (o : OCR) :
  let after :=
    LoadFont File Image os_Stat ioutil_ReadDir os_Open image_Decode
             ensureGrayScale newImageBinary fontPath o in
  snd after = None ->
  exists files symbols,
    ioutil_ReadDir fontPath = Ok files /\
    Forall2 (fun f fs =>
               loadSymbol File Image os_Open image_Decode ensureGrayScale
                          newImageBinary fontPath (Name f) = Ok fs)
            (List.filter visible files) symbols /\
    allSymbols (fst after) = allSymbols o ++ symbols /\
    fontFamilies (fst after) !! Base fontPath
      = Some (default [] (fontFamilies o !! Base fontPath) ++ symbols) /\
    (forall other, other <> Base fontPath ->
       fontFamilies (fst after) !! other = fontFamilies o !! other).
Proof.
  intros after. unfold after, LoadFont.
  destruct (IsNotExist (os_Stat fontPath)) eqn:Est.
  - cbn [snd]. intros Hnone. rewrite Hnone in Est. discriminate.
  - destruct (loadFont _ _ _ _ _ _ _ fontPath) as [symbols | e] eqn:El;
      cbn [fst snd]; [| discriminate].
    intros _. unfold loadFont in El.
    destruct (ioutil_ReadDir fontPath) as [files |] eqn:Hf; [| discriminate].
    apply loadFont_loop_ok in El as (new & Hnew & Hall).
    simpl in Hnew. subst new.
    exists files, symbols. split; [reflexivity |]. split; [assumption |].
    destruct (AddFontFamily_lookup_parts (Base fontPath) symbols o)
      as (H1 & H2 & H3).
    auto.
Qed.

(** X24: [LoadFont] fails exactly in two ways: [os.Stat] says that the
    path does not exist, and that error is returned; or it does not say
    so (it may have failed otherwise) and [loadFont] fails. *)
Theorem LoadFont_error_causes (fontPath : string) (o : OCR) (e : error) :
  snd (LoadFont File Image os_Stat ioutil_ReadDir os_Open image_Decode
                ensureGrayScale newImageBinary fontPath o) = Some e <->
  (IsNotExist (os_Stat fontPath) = true /\ os_Stat fontPath = Some e) \/
  (IsNotExist (os_Stat fontPath) = false /\
   loadFont File Image ioutil_ReadDir os_Open image_Decode ensureGrayScale
            newImageBinary fontPath = Err e).
Proof.
  unfold LoadFont. destruct (IsNotExist (os_Stat fontPath)) eqn:Est.
  - cbn [snd]. split.
    + intros H. left. by split.
    + intros [[_ H] | [H _]]; [assumption | discriminate].
  - destruct (loadFont _ _ _ _ _ _ _ fontPath) as [symbols | e']; cbn [snd].
    + split; [discriminate |]. intros [[H _] | [_ H]]; discriminate.
    + split.
      * intros H. injection H as ->. right. by split.
      * intros [[H _] | [_ H]]; [discriminate | congruence].
Qed.

End FontFacts.

Lemma loadFont_dims_witness :
  loadFont string imageBinary sampleReadDir sampleOpen sampleDecode id id
           "fonts/digits" = Ok [glyph "/" 3 4 5; glyph "0" 3 4 5] /\
  List.Forall (fun fs => width fs = ib_width (image fs) /\
                    height fs = ib_height (image fs))
         [glyph "/" 3 4 5; glyph "0" 3 4 5].
Proof.
  split; [reflexivity |].
  apply (loadFont_dims string imageBinary sampleReadDir sampleOpen
           sampleDecode id id "fonts/digits").
  reflexivity.
Defined.

Lemma LoadFont_success_extends_witness :
  snd (sampleLoadFont "fonts/digits" (NewOCR (1 # 2) [])) = None /\
  exists files symbols,
    sampleReadDir "fonts/digits" = Ok files /\
    Forall2 (fun f fs => sampleLoadSymbol "fonts/digits" (Name f) = Ok fs)
            (List.filter visible files) symbols /\
    allSymbols (fst (sampleLoadFont "fonts/digits" (NewOCR (1 # 2) [])))
      = allSymbols (NewOCR (1 # 2) []) ++ symbols /\
    fontFamilies (fst (sampleLoadFont "fonts/digits" (NewOCR (1 # 2) [])))
      !! Base "fonts/digits"
      = Some (default [] (fontFamilies (NewOCR (1 # 2) [])
                            !! Base "fonts/digits") ++ symbols) /\
    (forall other, other <> Base "fonts/digits" ->
       fontFamilies (fst (sampleLoadFont "fonts/digits" (NewOCR (1 # 2) [])))
         !! other
       = fontFamilies (NewOCR (1 # 2) []) !! other).
Proof.
  split; [reflexivity |].
  apply (LoadFont_success_extends string imageBinary sampleStat sampleReadDir sampleOpen
           sampleDecode id id "fonts/digits" (NewOCR (1 # 2) [])).
  reflexivity.
Defined.
